(** * TestSSO: push_back-and-sort benchmark over two string strategies

    A shallow embedding of [TestSSO/TestSSO/TestSSO.cpp].  The program
    builds 200,000 short wide strings, shuffles them with a Mersenne
    Twister seeded with 64, takes raw pointers to their buffers, and six
    times builds a vector of strings from those pointers and sorts it,
    once per run for ATL's [CStringW] and for [std::wstring], timing both
    phases with the Win32 performance counter and printing the durations.

    Conventions of the embedding:
    - [wchar_t] is a 16-bit code unit, carried as [N];
    - [long long] is [Z] with the 64-bit wrap-around written out;
    - [double] is IEEE 754 binary64, as [spec_float] with [prec = 53] and
      [emax = 1024];
    - the process state (counter, console, memory holding the string
      buffers) is threaded explicitly through a state-and-failure monad;
      failure stands for undefined behaviour (reading through a pointer
      that designates no NUL-terminated buffer). *)

From Stdlib Require Import ZArith NArith Lia Bool String Ascii.
From Stdlib Require Import Sorting.Sorted.
From Stdlib Require Import Floats.SpecFloat.
From stdpp Require Import base list.

#[local] Unset Default Proof Using.
#[local] Open Scope Z_scope.

(** ** Wide characters and lexicographic order *)

Definition wchar_t := N.

(** The terminating NUL of a C wide string. *)
Definition NUL : wchar_t := 0%N.

(** Ordinal ("codepoint") lexicographic order on sequences of code units:
    the order the benchmark's sort is meant to realise. *)
Fixpoint lex_ltb (a b : list wchar_t) : bool :=
  match a, b with
  | [], [] => false
  | [], _ :: _ => true
  | _ :: _, [] => false
  | x :: a', y :: b' =>
      if (x <? y)%N then true
      else if (y <? x)%N then false
      else lex_ltb a' b'
  end.

(** [a] does not come after [b]. *)
Definition lex_le (a b : list wchar_t) : Prop := lex_ltb b a = false.

(** The declarative reading of "lexicographically smaller": a proper
    prefix, or a common prefix followed by a smaller code unit. *)
Inductive lex_lt : list wchar_t -> list wchar_t -> Prop :=
  | lex_lt_prefix p y b : lex_lt p (p ++ y :: b)
  | lex_lt_differ p x a y b : (x < y)%N -> lex_lt (p ++ x :: a) (p ++ y :: b).

(** ** C wide-string primitives *)

(** [wcslen]: the number of code units before the first NUL.  The model
    buffer is a finite list; its end is read as a NUL. *)
Fixpoint wcslen (s : list wchar_t) : nat :=
  match s with
  | [] => 0%nat
  | c :: s' => if (c =? NUL)%N then 0%nat else S (wcslen s')
  end.

(** The text a NUL-terminated buffer holds. *)
Definition wcs_text (s : list wchar_t) : list wchar_t := take (wcslen s) s.

(** A buffer is a C string when a NUL occurs in it. *)
Definition nul_terminated (s : list wchar_t) : bool :=
  existsb (fun c => (c =? NUL)%N) s.

(** [wcscmp]: compare code unit by code unit up to the first NUL. *)
Fixpoint wcscmp (s1 s2 : list wchar_t) : Z :=
  match s1, s2 with
  | [], [] => 0
  | [], c2 :: _ => if (c2 =? NUL)%N then 0 else -1
  | c1 :: _, [] => if (c1 =? NUL)%N then 0 else 1
  | c1 :: s1', c2 :: s2' =>
      if (c1 =? c2)%N then (if (c1 =? NUL)%N then 0 else wcscmp s1' s2')
      else if (c1 <? c2)%N then -1 else 1
  end.

(** [wmemcmp]: compare the first [n] code units, NULs included. *)
Fixpoint wmemcmp (s1 s2 : list wchar_t) (n : nat) : Z :=
  match n with
  | O => 0
  | S n' =>
      match s1, s2 with
      | c1 :: s1', c2 :: s2' =>
          if (c1 =? c2)%N then wmemcmp s1' s2' n'
          else if (c1 <? c2)%N then -1 else 1
      | _, _ => 0
      end
  end.

(** ** The two string strategies *)

Inductive Strategy := ATL | STL.

(** [std::wstring]: the characters, with their count. *)
Record wstring := WString { ws_chars : list wchar_t }.

(** [ATL::CStringW]: a heap buffer [m_pszData] holding the characters and
    a terminating NUL. *)
Record CStringW := CString { m_pszData : list wchar_t }.

(** [basic_string::compare]: [traits::compare] on the common length, ties
    broken by the lengths. *)
Definition wstring_compare (l r : wstring) : Z :=
  let ln := length (ws_chars l) in
  let rn := length (ws_chars r) in
  let ans := wmemcmp (ws_chars l) (ws_chars r) (Nat.min ln rn) in
  if negb (ans =? 0) then ans
  else if (ln <? rn)%nat then -1
  else if (rn <? ln)%nat then 1
  else 0.

(** [CStringT::Compare]: [wcscmp] on the two buffers. *)
Definition CStringW_Compare (l r : CStringW) : Z :=
  wcscmp (m_pszData l) (m_pszData r).

(** What [MeasurePushBackAndSort] needs of its template parameter:
    construction from a [const wchar_t*] (here: from the buffer the
    pointer designates) and [operator<].  [chars] is the sequence of
    characters the string holds, [strategy] names the instantiation. *)
Class StringT (T : Type) := {
  strategy : Strategy;
  from_wcs : list wchar_t -> T;
  less : T -> T -> bool;
  chars : T -> list wchar_t;
}.

#[export] Instance wstring_StringT : StringT wstring := {|
  strategy := STL;
  from_wcs buf := WString (take (wcslen buf) buf);
  less l r := wstring_compare l r <? 0;
  chars := ws_chars;
|}.

#[export] Instance CStringW_StringT : StringT CStringW := {|
  strategy := ATL;
  from_wcs buf := CString (take (wcslen buf) buf ++ [NUL]);
  less l r := CStringW_Compare l r <? 0;
  chars s := wcs_text (m_pszData s);
|}.

(** The facts about a strategy the benchmark relies on: construction keeps
    the text, and [operator<] is the ordinal lexicographic order. *)
Class StringTLaws (T : Type) `{StringT T} := {
  chars_from_wcs : forall buf, chars (from_wcs buf) = wcs_text buf;
  less_lex : forall a b, less a b = lex_ltb (chars a) (chars b);
}.

(** ** [std::sort] *)

(** The standard fixes the result of [std::sort], not the algorithm; the
    model is insertion sort driven by [operator<]. *)
Section Sort.
Context {T : Type} `{StringT T}.

Fixpoint insert_sorted (x : T) (l : list T) : list T :=
  match l with
  | [] => [x]
  | y :: l' => if less x y then x :: l else y :: insert_sorted x l'
  end.

Definition sort (l : list T) : list T := foldr insert_sorted [] l.
End Sort.

(** ** Machine numbers *)

(** [long long]: a signed 64-bit integer; arithmetic wraps. *)
Definition wrap_ll (z : Z) : Z := (z + 2 ^ 63) mod 2 ^ 64 - 2 ^ 63.

Definition ll_sub (a b : Z) : Z := wrap_ll (a - b).

(** [double]: IEEE 754 binary64. *)
Definition double := spec_float.

Definition double_of_Z (z : Z) : double := binary_normalize 53 1024 z 0 false.
Definition double_mul (x y : double) : double := SFmul 53 1024 x y.
Definition double_div (x y : double) : double := SFdiv 53 1024 x y.

(** A dyadic literal [m * 2^e], such as [1.5 = 3 * 2^-1]. *)
Definition double_lit (m e : Z) : double := binary_normalize 53 1024 m e false.


(** ** The process state *)

(** A [const wchar_t*]: the address of a character buffer. *)
Abbreviation ptr := nat (only parsing).

(** [PerfData]: the results of a single test run. *)
Record PerfData := {
  PushBackTimeMs : double;
  SortTimeMs : double;
  Description : string;
}.

(** Calls the claims about sequencing speak of, recorded as they start. *)
Inductive Event :=
  | EvRun (s : Strategy) (shuffled_ptrs : list ptr) (description : string)
  | EvPrint (perf_data : PerfData).

(** What the program reads and writes.
    - [qpc n] is what the [n]-th call of [QueryPerformanceCounter] stores,
      [qpc_calls] the number of calls made so far;
    - [qpf] is what [QueryPerformanceFrequency] stores;
    - [memory] holds the character buffers that pointers designate: the
      buffer at address [p] is [memory !! p];
    - [console] is what has been written to [cout];
    - [events] is a ghost log of the calls of the runner and the printer,
      latest first. *)
Record World := {
  qpc : nat -> Z;
  qpc_calls : nat;
  qpf : Z;
  memory : list (list wchar_t);
  console : string;
  events : list Event;
}.

(** ** A state-and-failure monad over [World] *)

Definition M (A : Type) : Type := World -> option (A * World).

Definition ret {A} (a : A) : M A := fun w => Some (a, w).

Definition bind {A B} (c : M A) (k : A -> M B) : M B :=
  fun w => match c w with
           | Some (a, w') => k a w'
           | None => None
           end.

(** Undefined behaviour. *)
Definition undefined {A} : M A := fun _ => None.

#[export] Instance M_ret : MRet M := @ret.
#[export] Instance M_bind : MBind M := fun A B k c => bind c k.

Definition log (e : Event) : M unit := fun w =>
  Some (tt, {| qpc := qpc w; qpc_calls := qpc_calls w; qpf := qpf w;
               memory := memory w; console := console w;
               events := e :: events w |}).

(** [cout << s] for a character string. *)
Definition cout (s : string) : M unit := fun w =>
  Some (tt, {| qpc := qpc w; qpc_calls := qpc_calls w; qpf := qpf w;
               memory := memory w; console := (console w ++ s)%string;
               events := events w |}).

(** Reading the C string at [p]: undefined unless [p] designates a
    NUL-terminated buffer. *)
Definition deref (p : ptr) : M (list wchar_t) := fun w =>
  match memory w !! p with
  | Some buf => if nul_terminated buf then Some (buf, w) else None
  | None => None
  end.

(** ** High-resolution performance counter wrappers *)

(** Wraps Win32's [QueryPerformanceCounter]. *)
Definition Counter : M Z := fun w =>
  Some (wrap_ll (qpc w (qpc_calls w)),
        {| qpc := qpc w; qpc_calls := S (qpc_calls w); qpf := qpf w;
           memory := memory w; console := console w; events := events w |}).

(** Wraps Win32's [QueryPerformanceFrequency]. *)
Definition Frequency : M Z := fun w => Some (wrap_ll (qpf w), w).

(** [(finish - start) * 1000.0 / Frequency()]: the difference is taken in
    [long long], converted to [double], multiplied and divided there. *)
Definition MillisecondsFromDeltaCounter (start finish : Z) : M double :=
  f ← Frequency;
  mret (double_div (double_mul (double_of_Z (ll_sub finish start))
                              (double_lit 1000 0))
                  (double_of_Z f)).

(** ** Decimal text *)

(** The decimal digits of a non-negative number, most significant first,
    produced as the library's integer-to-text loop does: the last digit is
    [n mod 10], the rest comes from [n / 10], until the quotient is zero.
    [fuel] bounds the number of digits. *)
Fixpoint decimal_digits_aux (fuel : nat) (n : Z) (acc : list Z) : list Z :=
  match fuel with
  | O => acc
  | S fuel' =>
      let acc' := n mod 10 :: acc in
      if n / 10 =? 0 then acc' else decimal_digits_aux fuel' (n / 10) acc'
  end.

(** A number has no more decimal digits than binary ones, which bounds
    the loop. *)
Definition decimal_digits (n : Z) : list Z :=
  decimal_digits_aux (S (Z.to_nat (Z.log2 n))) n [].

(** The number a sequence of decimal digits denotes. *)
Definition decimal_value (ds : list Z) : Z :=
  fold_left (fun a d => 10 * a + d) ds 0.

(** [L'0' + d] and [L'-']. *)
Definition wdigit (d : Z) : wchar_t := (48 + Z.to_N d)%N.
Definition wminus : wchar_t := 45%N.

(** [std::to_wstring(int)]. *)
Definition to_wstring (i : Z) : wstring :=
  if i <? 0 then WString (wminus :: map wdigit (decimal_digits (- i)))
  else WString (map wdigit (decimal_digits i)).

(** [L"#"]: the marker, as a C wide string literal. *)
Definition marker : list wchar_t := [35%N; NUL].

(** [operator+(const wchar_t*, const wstring&)]. *)
Definition wcs_plus (lit : list wchar_t) (s : wstring) : wstring :=
  WString (wcs_text lit ++ ws_chars s).

(** ** Text of a [double] on [cout] *)

Definition digit_char (d : Z) : ascii := ascii_of_nat (48 + Z.to_nat d).

Definition string_of_digits (ds : list Z) : string :=
  string_of_list_ascii (map digit_char ds).

(** [ds] padded with zeros on the left to [n] digits. *)
Definition pad_zeros (n : nat) (ds : list Z) : list Z :=
  replicate (n - length ds) 0 ++ ds.

(** Trailing zeros removed, as [%g] does without the [#] flag. *)
Fixpoint strip_zeros (ds : list Z) : list Z :=
  match ds with
  | [] => []
  | d :: ds' =>
      match strip_zeros ds' with
      | [] => if d =? 0 then [] else [d]
      | r => d :: r
      end
  end.

(** The integer nearest to [n / d], ties to even ([n >= 0], [d > 0]). *)
Definition round_half_even (n d : Z) : Z :=
  let q := n / d in
  let r := n mod d in
  if 2 * r <? d then q
  else if d <? 2 * r then q + 1
  else if Z.even q then q else q + 1.

(** The decimal exponent of [n / d]: the [x] with
    [10^x <= n / d < 10^(x+1)], searched from [x] upwards. *)
Fixpoint decimal_exponent_up (fuel : nat) (n d x : Z) : Z :=
  match fuel with
  | O => x
  | S fuel' =>
      if n <? d * 10 ^ (x + 1) then x
      else decimal_exponent_up fuel' n d (x + 1)
  end.

Fixpoint decimal_exponent_down (fuel : nat) (n d x : Z) : Z :=
  match fuel with
  | O => x
  | S fuel' =>
      if d <=? n * 10 ^ (- x) then x
      else decimal_exponent_down fuel' n d (x - 1)
  end.

Definition decimal_exponent (n d : Z) : Z :=
  if d <=? n then decimal_exponent_up 400 n d 0
  else decimal_exponent_down 400 n d (-1).

(** [n / d] scaled by [10^(- k)] and rounded to an integer. *)
Definition scaled_round (n d k : Z) : Z :=
  if 0 <=? k then round_half_even n (d * 10 ^ k)
  else round_half_even (n * 10 ^ (- k)) d.

(** The conversion [%g] with precision 6, which is what [operator<<]
    applies to a [double] on a stream in its initial state: six
    significant digits, fixed notation when the decimal exponent [x] has
    [-4 <= x < 6] and scientific notation otherwise, trailing zeros and a
    trailing decimal point removed.  [n / d] is the magnitude. *)
Definition format_g (n d : Z) : string :=
  let x0 := decimal_exponent n d in
  let m0 := scaled_round n d (x0 - 5) in
  let '(m, x) := if m0 =? 10 ^ 6 then (10 ^ 5, x0 + 1) else (m0, x0) in
  if (-4 <=? x) && (x <? 6) then
    let frac_len := Z.to_nat (5 - x) in
    let int_part := string_of_digits (decimal_digits (m / 10 ^ (5 - x))) in
    let frac := strip_zeros (pad_zeros frac_len (decimal_digits (m mod 10 ^ (5 - x)))) in
    match frac_len, frac with
    | O, _ | _, [] => int_part
    | _, _ => (int_part ++ "." ++ string_of_digits frac)%string
    end
  else
    let ds := pad_zeros 6 (decimal_digits m) in
    let lead := string_of_digits (take 1 ds) in
    let mantissa :=
      match strip_zeros (tail ds) with
      | [] => lead
      | frac => (lead ++ "." ++ string_of_digits frac)%string
      end in
    let sign := if x <? 0 then "-"%string else "+"%string in
    let expo := string_of_digits (pad_zeros 2 (decimal_digits (Z.abs x))) in
    (mantissa ++ "e" ++ sign ++ expo)%string.

(** [cout << x] for a [double]. *)
Definition put_double (x : double) : string :=
  match x with
  | S754_nan => "nan"%string
  | S754_infinity s => if s then "-inf"%string else "inf"%string
  | S754_zero s => if s then "-0"%string else "0"%string
  | S754_finite s m e =>
      let sign := if s then "-"%string else EmptyString in
      let magnitude :=
        if 0 <=? e then format_g (Z.pos m * 2 ^ e) 1
        else format_g (Z.pos m) (2 ^ (- e)) in
      (sign ++ magnitude)%string
  end.

(** A line feed. *)
Definition LF : string := String (ascii_of_nat 10) EmptyString.

Definition PrintTime (perf_data : PerfData) : M unit :=
  log (EvPrint perf_data);;
  cout (Description perf_data);; cout (":" ++ LF)%string;;
  cout "  push_back : "%string;; cout (put_double (PushBackTimeMs perf_data));;
  cout (" ms" ++ LF)%string;;
  cout "  sort      : "%string;; cout (put_double (SortTimeMs perf_data));;
  cout (" ms" ++ LF ++ LF)%string.

(** ** Benchmark core *)

(** [v.push_back(x)]. *)
Definition push_back {A} (v : list A) (x : A) : list A := v ++ [x].

Section Runner.
Context (T : Type) `{StringT T}.

(** [for (const auto& ptr : shuffled_ptrs) v.push_back(ptr);] where
    [push_back] builds the [StringT] from the pointer. *)
Fixpoint push_back_all (shuffled_ptrs : list ptr) (v : list T) : M (list T) :=
  match shuffled_ptrs with
  | [] => mret v
  | p :: rest =>
      buf ← deref p;
      push_back_all rest (push_back v (from_wcs buf))
  end.

(** The body of [MeasurePushBackAndSort<T>], returning next to the
    [PerfData] the local vector [v] as it is after the sort step. *)
Definition MeasurePushBackAndSort_body
    (shuffled_ptrs : list ptr) (description : string) : M (PerfData * list T) :=
  log (EvRun strategy shuffled_ptrs description);;
  start ← Counter;
  v ← push_back_all shuffled_ptrs [];
  finish ← Counter;
  push_back_time_ms ← MillisecondsFromDeltaCounter start finish;
  start ← Counter;
  let v := sort v in
  finish ← Counter;
  sort_time_ms ← MillisecondsFromDeltaCounter start finish;
  mret ({| PushBackTimeMs := push_back_time_ms;
           SortTimeMs := sort_time_ms;
           Description := description |}, v).

(** [MeasurePushBackAndSort<T>]: the vector is dropped on return. *)
Definition MeasurePushBackAndSort
    (shuffled_ptrs : list ptr) (description : string) : M PerfData :=
  r ← MeasurePushBackAndSort_body shuffled_ptrs description;
  mret (fst r).
End Runner.

(** ** [std::mt19937] *)

(** The engine [mersenne_twister_engine<uint_fast32_t, 32, 624, 397, 31,
    0x9908b0df, 11, 0xffffffff, 7, 0x9d2c5680, 15, 0xefc60000, 18,
    1812433253>] of the C++ standard.  The state [mt_x] is the sequence of
    the last 624 values [X]. *)
Record mt19937 := { mt_x : list Z }.

(** Reduction to 32 bits. *)
Definition uint32 (z : Z) : Z := Z.land z 0xffffffff.

Definition mt_seed_next (k prev : Z) : Z :=
  uint32 (1812433253 * Z.lxor prev (Z.shiftr prev 30) + k).

Fixpoint mt_seed_fill (count : nat) (k prev : Z) : list Z :=
  match count with
  | O => []
  | S count' =>
      let x := mt_seed_next k prev in
      x :: mt_seed_fill count' (k + 1) x
  end.

(** [mt19937 prng(value)]. *)
Definition mt19937_seed (value : Z) : mt19937 :=
  let x0 := uint32 value in
  {| mt_x := x0 :: mt_seed_fill 623 1 x0 |}.

(** The tempering of a state value into an output. *)
Definition mt_temper (x : Z) : Z :=
  let z1 := Z.lxor x (Z.land (Z.shiftr x 11) 0xffffffff) in
  let z2 := Z.lxor z1 (Z.land (uint32 (Z.shiftl z1 7)) 0x9d2c5680) in
  let z3 := Z.lxor z2 (Z.land (uint32 (Z.shiftl z2 15)) 0xefc60000) in
  Z.lxor z3 (Z.shiftr z3 18).

(** [prng()]: the transition to the next state value and its output. *)
Definition mt19937_next (g : mt19937) : Z * mt19937 :=
  let x := mt_x g in
  let y := Z.lor (Z.land (nth 0 x 0) 0x80000000) (Z.land (nth 1 x 0) 0x7fffffff) in
  let alpha := if Z.odd y then 0x9908b0df else 0 in
  let xi := Z.lxor (Z.lxor (nth 397 x 0) (Z.shiftr y 1)) alpha in
  (mt_temper xi, {| mt_x := tail x ++ [xi] |}).

(** The [k]-th output of an engine, counting from 1. *)
Fixpoint mt19937_nth (k : nat) (g : mt19937) : Z :=
  match k with
  | O => 0
  | S O => fst (mt19937_next g)
  | S k' => mt19937_nth k' (snd (mt19937_next g))
  end.

(** ** [std::shuffle] *)

(** The standard leaves to the library how [shuffle] draws its indexes from
    the engine, so the development takes that as a parameter
    [index_below]: from an engine and a bound [n] to an index meant to lie
    in [[0, n)] and the engine after the draw.  The loop is the library's:
    each position from the second on is exchanged with a drawn position
    not after it. *)
Section Shuffle.
Context {A : Type}.
Variable index_below : mt19937 -> Z -> Z * mt19937.

(** [swap(v[i], v[j])]; positions outside the vector are left alone. *)
Definition swap (v : list A) (i j : nat) : list A :=
  match v !! i, v !! j with
  | Some a, Some b => <[i := b]> (<[j := a]> v)
  | _, _ => v
  end.

Fixpoint shuffle_from (steps : nat) (target : Z) (v : list A) (g : mt19937)
    : list A * mt19937 :=
  match steps with
  | O => (v, g)
  | S steps' =>
      let '(off, g') := index_below g (target + 1) in
      let v' := if off =? target then v
                else swap v (Z.to_nat target) (Z.to_nat off) in
      shuffle_from steps' (target + 1) v' g'
  end.

(** [shuffle(v.begin(), v.end(), prng)]. *)
Definition shuffle (v : list A) (g : mt19937) : list A * mt19937 :=
  shuffle_from (length v - 1) 1 v g.
End Shuffle.

(** The draws a shuffle makes over [steps] positions from [target] on, in
    order. *)
Fixpoint shuffle_draws (index_below : mt19937 -> Z -> Z * mt19937)
    (steps : nat) (target : Z) (g : mt19937) : list Z :=
  match steps with
  | O => []
  | S steps' =>
      let '(off, g') := index_below g (target + 1) in
      off :: shuffle_draws index_below steps' (target + 1) g'
  end.

(** The adapter of Microsoft's library ([_Rng_from_urng]) for a 32-bit
    engine and a bound of at most [2^32]: draw 32 bits, reject the draw
    when it falls in the incomplete last block of [index] values, reduce
    modulo [index] otherwise.  The library loops until a draw is
    accepted; [fuel] bounds the number of rejected draws, and the
    outcome says whether a draw was accepted. *)
Fixpoint Rng_from_urng_fuel (fuel : nat) (g : mt19937) (index : Z)
    : bool * (Z * mt19937) :=
  let '(ret, g') := mt19937_next g in
  let mask := 0xffffffff in
  if (ret / index <? mask / index) || (mask mod index =? index - 1)
  then (true, (ret mod index, g'))
  else match fuel with
       | O => (false, (ret mod index, g'))
       | S fuel' => Rng_from_urng_fuel fuel' g' index
       end.

Definition Rng_from_urng (g : mt19937) (index : Z) : Z * mt19937 :=
  snd (Rng_from_urng_fuel 64 g index).

(** ** The program *)

(** [int]: a signed 32-bit integer; arithmetic wraps. *)
Definition wrap_int (z : Z) : Z := (z + 2 ^ 31) mod 2 ^ 32 - 2 ^ 31.

(** A [wstring] that lives in the process memory: [c_str] is the address
    of its NUL-terminated buffer, [ws_value] the string it holds. *)
Record wstring_object := { c_str : ptr; ws_value : wstring }.

(** The buffer a [wstring] keeps: its characters and a NUL. *)
Definition ws_buffer (s : wstring) : list wchar_t := ws_chars s ++ [NUL].

(** [const auto shuffled = ...;]: the strings of the returned vector take
    their place in memory, one buffer each, after what is there. *)
Definition place_strings (v : list wstring) : M (list wstring_object) := fun w =>
  let base := length (memory w) in
  Some (imap (fun i s => {| c_str := (base + i)%nat; ws_value := s |}) v,
        {| qpc := qpc w; qpc_calls := qpc_calls w; qpf := qpf w;
           memory := memory w ++ map ws_buffer v;
           console := console w; events := events w |}).

(** [for (const auto& s : shuffled) v.push_back(s.c_str());] *)
Fixpoint push_back_c_str (shuffled : list wstring_object) (v : list ptr) : list ptr :=
  match shuffled with
  | [] => v
  | s :: rest => push_back_c_str rest (push_back v (c_str s))
  end.

Section Program.
(** Whether the build defines [_WIN64]. *)
Variable WIN64 : bool.
(** How the library's [shuffle] draws an index from the engine. *)
Variable index_below : mt19937 -> Z -> Z * mt19937.

(** [for (int i = 0; i < limit; ++i) v.push_back(L"#" + to_wstring(i));]
    from the current [i] on; [fuel] bounds the iterations left. *)
Fixpoint small_strings (fuel : nat) (i limit : Z) (v : list wstring)
    : list wstring :=
  match fuel with
  | O => v
  | S fuel' =>
      if i <? limit
      then small_strings fuel' (wrap_int (i + 1)) limit
                         (push_back v (wcs_plus marker (to_wstring i)))
      else v
  end.

(** The strings before the shuffle. *)
Definition corpus (count : Z) : list wstring :=
  small_strings (Z.to_nat count) 0 count [].

(** The first lambda of [main]: build the strings, shuffle them with a
    freshly seeded engine. *)
Definition shuffled_strings (count seed : Z) : list wstring :=
  let v := corpus count in
  let prng := mt19937_seed seed in
  fst (shuffle index_below v prng).

(** The second lambda of [main]: a vector of pointers to the strings. *)
Definition observing_ptrs (shuffled : list wstring_object) : list ptr :=
  push_back_c_str shuffled [].

Definition banner : M unit :=
  cout (LF ++ "*** SSO Performance Benchmark ***" ++ LF)%string;;
  cout (" by Giovanni Dicanio" ++ LF ++ LF)%string;;
  if WIN64 then cout ("(64-bit)" ++ LF ++ LF)%string else mret tt.

(** [main] with the number of strings and the seed left open. *)
Definition benchmark (count seed : Z) : M Z :=
  banner;;
  shuffled ← place_strings (shuffled_strings count seed);
  let shuffled_ptrs := observing_ptrs shuffled in
  (MeasurePushBackAndSort CStringW shuffled_ptrs "ATL1" ≫= PrintTime);;
  (MeasurePushBackAndSort wstring shuffled_ptrs "STL1" ≫= PrintTime);;
  (MeasurePushBackAndSort CStringW shuffled_ptrs "ATL2" ≫= PrintTime);;
  (MeasurePushBackAndSort wstring shuffled_ptrs "STL2" ≫= PrintTime);;
  (MeasurePushBackAndSort CStringW shuffled_ptrs "ATL3" ≫= PrintTime);;
  (MeasurePushBackAndSort wstring shuffled_ptrs "STL3" ≫= PrintTime);;
  mret 0.

(** Console application entry point. *)
Definition main : M Z := benchmark (200 * 1000) 64.
End Program.

(** A world in which nothing has happened yet, with a counter that ticks
    [step] per reading and a frequency of [freq] ticks per second. *)
Definition fresh_world (step freq : Z) : World :=
  {| qpc n := step * Z.of_nat n; qpc_calls := 0; qpf := freq;
     memory := []; console := EmptyString; events := [] |}.

(** The template instantiation a strategy stands for. *)
Definition StringOf (s : Strategy) : Type :=
  match s with ATL => CStringW | STL => wstring end.

#[export] Instance StringOf_StringT (s : Strategy) : StringT (StringOf s) :=
  match s with ATL => CStringW_StringT | STL => wstring_StringT end.

(** ** Notions the statements use *)

(** The C string a pointer designates in a memory, if it designates one. *)
Definition c_string_at (m : list (list wchar_t)) (p : ptr) : option (list wchar_t) :=
  match m !! p with
  | Some buf => if nul_terminated buf then Some (wcs_text buf) else None
  | None => None
  end.

(** The pointer designates the NUL-terminated buffer [buf]. *)
Definition designates (m : list (list wchar_t)) (p : ptr) (buf : list wchar_t) : Prop :=
  m !! p = Some buf /\ nul_terminated buf = true.

(** Non-decreasing lexicographic order of the characters of a vector of
    strings: no element comes after a later one. *)
Definition sorted_lex {T} `{StringT T} (v : list T) : Prop :=
  StronglySorted (fun a b => lex_le (chars a) (chars b)) v.

(** A decimal digit. *)
Definition is_digit (d : Z) : Prop := 0 <= d <= 9.

(** A digit sequence is canonical when it is "0" or starts with a
    non-zero digit. *)
Definition canonical_digits (ds : list Z) : Prop :=
  Forall is_digit ds /\ (ds = [0] \/ exists d ds', ds = d :: ds' /\ d <> 0).

(** A wide string literal from its characters, e.g. [L"#2"]. *)
Definition wliteral (s : string) : list wchar_t :=
  map (fun c => N_of_ascii c) (list_ascii_of_string s).

(** The lines of a report and the text they make. *)
Definition report_lines (perf_data : PerfData) : list string :=
  [ (Description perf_data ++ ":")%string;
    ("  push_back : " ++ put_double (PushBackTimeMs perf_data) ++ " ms")%string;
    ("  sort      : " ++ put_double (SortTimeMs perf_data) ++ " ms")%string;
    EmptyString ].

Definition unlines (ls : list string) : string :=
  foldr (fun l acc => (l ++ LF ++ acc)%string) EmptyString ls.

(** A string occurs in another. *)
Fixpoint contains (s sub : string) : bool :=
  if String.prefix sub s then true
  else match s with
       | EmptyString => false
       | String _ s' => contains s' sub
       end.

(** The duration the program computes from two counter readings when the
    frequency reads [freq]. *)
Definition elapsed_ms (freq start finish : Z) : double :=
  double_div (double_mul (double_of_Z (ll_sub finish start)) (double_lit 1000 0))
             (double_of_Z (wrap_ll freq)).

(** The sample of a run whose first counter reading is the [n]-th, for a
    counter that reads [counter k] at its [k]-th reading. *)
Definition sample_of (counter : nat -> Z) (freq : Z) (n : nat) (description : string)
    : PerfData :=
  {| PushBackTimeMs :=
       elapsed_ms freq (wrap_ll (counter n)) (wrap_ll (counter (1 + n)%nat));
     SortTimeMs :=
       elapsed_ms freq (wrap_ll (counter (2 + n)%nat)) (wrap_ll (counter (3 + n)%nat));
     Description := description |}.

Definition sample_at (w : World) (n : nat) (description : string) : PerfData :=
  sample_of (qpc w) (qpf w) n description.

(** The world after a run of the runner. *)
Definition after_run (w : World) (e : Event) : World :=
  {| qpc := qpc w; qpc_calls := 4 + qpc_calls w; qpf := qpf w;
     memory := memory w; console := console w; events := e :: events w |}.

(** The world after a call of the printer. *)
Definition after_print (w : World) (perf_data : PerfData) : World :=
  {| qpc := qpc w; qpc_calls := qpc_calls w; qpf := qpf w;
     memory := memory w;
     console := (console w ++ unlines (report_lines perf_data))%string;
     events := EvPrint perf_data :: events w |}.

(** Every draw of a shuffle lies between the first position and its
    target, [target] being the target of the first draw. *)
Fixpoint draws_in_range (target : Z) (ds : list Z) : bool :=
  match ds with
  | [] => true
  | d :: ds' => (0 <=? d) && (d <=? target) && draws_in_range (target + 1) ds'
  end.

(** One pass over the draws of a shuffle with [Rng_from_urng]: whether
    every draw is accepted within the bound on rejected draws and lies in
    range, and the offset drawn last ([prev] when there is no draw). *)
Fixpoint Rng_draws_check (steps : nat) (target : Z) (g : mt19937) (prev : Z)
    : bool * Z :=
  match steps with
  | O => (true, prev)
  | S steps' =>
      let '(ok, (off, g')) := Rng_from_urng_fuel 64 g (target + 1) in
      if ok && (0 <=? off) && (off <=? target)
      then Rng_draws_check steps' (target + 1) g' off
      else (false, off)
  end.

(** What [main] writes before the first run. *)
Definition banner_text (WIN64 : bool) : string :=
  ((LF ++ "*** SSO Performance Benchmark ***" ++ LF) ++
   (" by Giovanni Dicanio" ++ LF ++ LF) ++
   (if WIN64 then "(64-bit)" ++ LF ++ LF else EmptyString))%string.

(** The world after one run of the runner on [ptrs] and the printing of
    its sample. *)
Definition run_and_print (s : Strategy) (ptrs : list ptr) (description : string)
    (w : World) : World :=
  after_print (after_run w (EvRun s ptrs description))
              (sample_at w (qpc_calls w) description).

(** The six runs of [main] in order, each with its strategy and label. *)
Definition six_runs : list (Strategy * string) :=
  [(ATL, "ATL1"); (STL, "STL1"); (ATL, "ATL2");
   (STL, "STL2"); (ATL, "ATL3"); (STL, "STL3")]%string.

(** The worlds in which the runs of [runs] start, from [w] on, and the
    world after the last of them. *)
Fixpoint worlds_of_runs (runs : list (Strategy * string)) (ptrs : list ptr)
    (w : World) : list World * World :=
  match runs with
  | [] => ([], w)
  | (s, description) :: rest =>
      let '(ws, w') := worlds_of_runs rest ptrs (run_and_print s ptrs description w) in
      (w :: ws, w')
  end.

(** The world after the banner and the two lambdas of [main]. *)
Definition world_before_runs (WIN64 : bool) (shuffled : list wstring) (w : World)
    : World :=
  {| qpc := qpc w; qpc_calls := qpc_calls w; qpf := qpf w;
     memory := memory w ++ map ws_buffer shuffled;
     console := (console w ++ banner_text WIN64)%string;
     events := events w |}.

(** The pointers the second lambda of [main] collects when the strings
    are placed from address [base] on. *)
Definition corpus_ptrs (base : nat) (shuffled : list wstring) : list ptr :=
  seq base (length shuffled).

(** Symbolic simplification leaves the numeric kernels folded. *)
Arguments put_double : simpl never.
Arguments elapsed_ms : simpl never.
Arguments sample_of : simpl never.
Arguments Rng_from_urng_fuel : simpl never.
Arguments Rng_from_urng : simpl never.
Arguments mt19937_seed : simpl never.
Arguments corpus : simpl never.
Arguments shuffled_strings : simpl never.
Arguments to_wstring : simpl never.
Arguments decimal_digits : simpl never.

(** ** Further notions *)

(** [0.0 <= x] as the comparison of doubles decides it: [x] is neither
    negative nor a NaN. *)
Definition double_nonneg (x : double) : bool :=
  SFleb (double_of_Z 0) x.

(** [- x]. *)
Definition double_opp (x : double) : double := SFopp x.

(** A value a [long long] can hold. *)
Definition in_ll (z : Z) : Prop := - 2 ^ 63 <= z < 2 ^ 63.

(** Neither infinite nor a NaN. *)
Definition double_finite (x : double) : bool :=
  match x with
  | S754_zero _ | S754_finite _ _ _ => true
  | _ => false
  end.

(** The literal [1000.0]. *)
Definition double_1000 : double := S754_finite false 8796093022208000 (-43).

(** The double that holds the integer [z] exactly, for [0 < z < 2^53]:
    the mantissa is [z] shifted to 53 bits. *)
Definition double_exact (z : Z) : double :=
  S754_finite false (Z.to_pos (z * 2 ^ (52 - Z.log2 z))) (Z.log2 z - 52).

(** * Properties *)

(** ** Lexicographic order *)

Lemma lex_ltb_irrefl a : lex_ltb a a = false.
Proof.
  induction a as [|x a IH]; simpl; [done|].
  by rewrite N.ltb_irrefl.
Qed.

Lemma lex_ltb_asym a b : lex_ltb a b = true -> lex_ltb b a = false.
Proof.
  revert b; induction a as [|x a IH]; intros [|y b]; simpl; try done.
  destruct (N.ltb_spec x y), (N.ltb_spec y x); try done; try lia.
  apply IH.
Qed.

Lemma lex_ltb_trans a b c :
  lex_ltb a b = true -> lex_ltb b c = true -> lex_ltb a c = true.
Proof.
  revert b c; induction a as [|x a IH]; intros [|y b] [|z c]; simpl; try done.
  destruct (N.ltb_spec x y), (N.ltb_spec y x), (N.ltb_spec y z),
    (N.ltb_spec z y), (N.ltb_spec x z), (N.ltb_spec z x);
    try done; try lia.
  apply IH.
Qed.

Lemma lex_ltb_connected a b :
  lex_ltb a b = false -> lex_ltb b a = false -> a = b.
Proof.
  revert b; induction a as [|x a IH]; intros [|y b]; simpl; try done.
  destruct (N.ltb_spec x y), (N.ltb_spec y x); try done.
  intros Hab Hba. assert (x = y) by lia. subst. f_equal. by apply IH.
Qed.

Lemma lex_le_refl a : lex_le a a.
Proof. apply lex_ltb_irrefl. Qed.

Lemma lex_le_trans a b c : lex_le a b -> lex_le b c -> lex_le a c.
Proof.
  unfold lex_le. revert b c; induction a as [|x a IH]; intros [|y b] [|z c];
    simpl; try done.
  destruct (N.ltb_spec x y), (N.ltb_spec y x), (N.ltb_spec y z),
    (N.ltb_spec z y), (N.ltb_spec x z), (N.ltb_spec z x);
    try done; try lia.
  apply IH.
Qed.

Lemma lex_le_antisym a b : lex_le a b -> lex_le b a -> a = b.
Proof. unfold lex_le. intros. by apply lex_ltb_connected. Qed.

(** The boolean order is the declarative one. *)
Lemma lex_ltb_lex_lt a b : lex_ltb a b = true <-> lex_lt a b.
Proof.
  split.
  - revert b; induction a as [|x a IH]; intros [|y b]; simpl; try done.
    + intros _. apply (lex_lt_prefix []).
    + destruct (N.ltb_spec x y) as [Hxy|Hxy].
      { intros _. by apply (lex_lt_differ []). }
      destruct (N.ltb_spec y x) as [Hyx|Hyx]; [done|].
      assert (x = y) by lia; subst. intros Hab.
      destruct (IH _ Hab) as [p z c|p u c v d Huv].
      * apply (lex_lt_prefix (y :: p)).
      * by apply (lex_lt_differ (y :: p)).
  - intros [p y c|p x c y d Hxy].
    + induction p as [|z p IH]; simpl; [done|].
      by rewrite N.ltb_irrefl.
    + induction p as [|z p IH]; simpl.
      * by apply N.ltb_lt in Hxy as ->.
      * by rewrite N.ltb_irrefl.
Qed.

(** ** C wide-string primitives *)

Lemma wcs_text_nil : wcs_text [] = [].
Proof. done. Qed.

Lemma wcs_text_cons c s :
  wcs_text (c :: s) = if (c =? NUL)%N then [] else c :: wcs_text s.
Proof. unfold wcs_text; simpl. by destruct (c =? NUL)%N. Qed.

Lemma wcs_text_app_NUL s : wcs_text (wcs_text s ++ [NUL]) = wcs_text s.
Proof.
  induction s as [|c s IH]; [done|].
  rewrite (wcs_text_cons c s). destruct (c =? NUL)%N eqn:Hc; [done|].
  simpl. rewrite wcs_text_cons, Hc. by f_equal.
Qed.

(** A text without NUL is what its buffer reads as. *)
Lemma wcs_text_buffer t : NUL ∉ t -> wcs_text (t ++ [NUL]) = t.
Proof.
  induction t as [|c t IH]; [done|].
  intros Hc. apply not_elem_of_cons in Hc as [Hc Ht].
  simpl. rewrite wcs_text_cons.
  destruct (N.eqb_spec c NUL); [congruence|]. f_equal. by apply IH.
Qed.

Lemma nul_terminated_buffer t : nul_terminated (t ++ [NUL]) = true.
Proof. unfold nul_terminated. rewrite existsb_app. simpl. apply orb_true_r. Qed.

(** ** The strategies compare lexicographically *)

Lemma wmemcmp_lex l r :
  (wstring_compare (WString l) (WString r) <? 0) = lex_ltb l r.
Proof.
  unfold wstring_compare; simpl.
  revert r; induction l as [|x l IH]; intros [|y r]; simpl; try done.
  destruct (N.eqb_spec x y) as [->|Hxy].
  - rewrite N.ltb_irrefl. apply IH.
  - destruct (N.ltb_spec x y); [done|].
    destruct (N.ltb_spec y x); [done|lia].
Qed.

Lemma wcscmp_lex a b :
  (wcscmp a b <? 0) = lex_ltb (wcs_text a) (wcs_text b).
Proof.
  revert b; induction a as [|x a IH]; intros [|y b];
    rewrite ?wcs_text_cons, ?wcs_text_nil; simpl.
  - done.
  - by destruct (y =? NUL)%N.
  - by destruct (x =? NUL)%N.
  - destruct (N.eqb_spec x y) as [->|Hxy].
    + destruct (y =? NUL)%N; [done|]. simpl.
      rewrite N.ltb_irrefl. apply IH.
    + destruct (N.eqb_spec x NUL) as [->|Hx], (N.eqb_spec y NUL) as [->|Hy].
      * done.
      * destruct (N.ltb_spec NUL y); [done|unfold NUL in *; lia].
      * destruct (N.ltb_spec x NUL); [unfold NUL in *; lia|done].
      * simpl. destruct (N.ltb_spec x y); [done|].
        destruct (N.ltb_spec y x); [done|lia].
Qed.

#[export] Instance wstring_StringTLaws : StringTLaws wstring.
Proof.
  split.
  - done.
  - intros [l] [r]. apply wmemcmp_lex.
Qed.

#[export] Instance CStringW_StringTLaws : StringTLaws CStringW.
Proof.
  split.
  - intros buf. apply wcs_text_app_NUL.
  - intros [l] [r]. apply wcscmp_lex.
Qed.

#[export] Instance StringOf_StringTLaws s : StringTLaws (StringOf s).
Proof. destruct s; apply _. Qed.

(** ** [std::sort] *)

Lemma lex_sorted_unique (a b : list (list wchar_t)) :
  StronglySorted lex_le a -> StronglySorted lex_le b -> a ≡ₚ b -> a = b.
Proof.
  revert b; induction a as [|x a IH]; intros b Ha Hb Hp.
  - by apply Permutation_nil_l in Hp.
  - destruct b as [|y b]; [by apply Permutation_nil_r in Hp|].
    inversion_clear Ha as [|? ? Hsa Hx].
    inversion_clear Hb as [|? ? Hsb Hy].
    assert (x = y) as ->.
    { apply lex_le_antisym.
      - assert (y ∈ x :: a) as Hin by (rewrite Hp; left).
        apply elem_of_cons in Hin as [->|Hin]; [apply lex_le_refl|].
        by eapply Forall_forall in Hx.
      - assert (x ∈ y :: b) as Hin by (rewrite <- Hp; left).
        apply elem_of_cons in Hin as [->|Hin]; [apply lex_le_refl|].
        by eapply Forall_forall in Hy. }
    f_equal. apply IH; [done..|]. by apply Permutation_cons_inv in Hp.
Qed.

Section SortFacts.
Context {T : Type} `{StringTLaws T}.

Lemma insert_sorted_Permutation x (l : list T) : insert_sorted x l ≡ₚ x :: l.
Proof.
  induction l as [|y l IH]; simpl; [done|].
  destruct (less x y); [done|].
  rewrite IH. apply perm_swap.
Qed.

Lemma sort_Permutation (l : list T) : sort l ≡ₚ l.
Proof.
  induction l as [|x l IH]; simpl; [done|].
  unfold sort in *. simpl. by rewrite insert_sorted_Permutation, IH.
Qed.

Lemma insert_sorted_sorted x (l : list T) :
  sorted_lex l -> sorted_lex (insert_sorted x l).
Proof.
  unfold sorted_lex.
  induction l as [|y l IH]; simpl; intros Hl.
  - repeat constructor.
  - inversion_clear Hl as [|? ? Hs Hy].
    destruct (less x y) eqn:Hxy; rewrite less_lex in Hxy.
    + constructor; [by constructor|].
      assert (lex_le (chars x) (chars y)) as Hle by by apply lex_ltb_asym.
      constructor; [done|].
      eapply Forall_impl; [exact Hy|].
      intros z Hz. by eapply lex_le_trans.
    + constructor; [by apply IH|].
      rewrite insert_sorted_Permutation. by constructor.
Qed.

Lemma sort_sorted (l : list T) : sorted_lex (sort l).
Proof.
  induction l as [|x l IH]; [constructor|].
  by apply insert_sorted_sorted.
Qed.

Lemma sorted_lex_map_chars (l : list T) :
  sorted_lex l -> StronglySorted lex_le (map chars l).
Proof.
  unfold sorted_lex. induction 1 as [|x l Hs IH Hx]; simpl; constructor.
  - done.
  - by apply Forall_map.
Qed.

(** Whatever algorithm sorts, iteration shows the same characters: a
    sorted rearrangement is unique. *)
Lemma sorted_lex_unique (l1 l2 : list T) :
  sorted_lex l1 -> sorted_lex l2 -> l1 ≡ₚ l2 ->
  map chars l1 = map chars l2.
Proof.
  intros H1 H2 Hp. apply lex_sorted_unique.
  - by apply sorted_lex_map_chars.
  - by apply sorted_lex_map_chars.
  - by apply Permutation_map.
Qed.
End SortFacts.

(** ** The runner *)

(** Unfolding the monad in a goal. *)
Ltac run_step :=
  unfold mbind, mret, M_bind, M_ret, bind, ret; simpl.

Lemma c_string_at_designates m p :
  is_Some (c_string_at m p) ->
  exists buf, designates m p buf /\ c_string_at m p = Some (wcs_text buf).
Proof.
  unfold c_string_at, designates. intros [t Ht].
  destruct (m !! p) as [buf|]; [|done].
  destruct (nul_terminated buf) eqn:Hn; [|done].
  by exists buf.
Qed.

Lemma designated_buffers m ptrs :
  Forall (fun p => is_Some (c_string_at m p)) ptrs ->
  exists bufs, Forall2 (designates m) ptrs bufs /\
               map (c_string_at m) ptrs = map (fun buf => Some (wcs_text buf)) bufs.
Proof.
  induction 1 as [|p ptrs Hp _ (bufs & IH1 & IH2)].
  - by exists [].
  - destruct (c_string_at_designates _ _ Hp) as (buf & Hd & Ht).
    exists (buf :: bufs). split; [by constructor|]. simpl. by rewrite Ht, IH2.
Qed.

Lemma deref_designates w p buf :
  designates (memory w) p buf -> deref p w = Some (buf, w).
Proof. unfold deref. by intros [-> ->]. Qed.

Section RunnerFacts.
Context {T : Type} `{StringTLaws T}.

(** The insertion loop appends one string per pointer, in order, and
    leaves the world as it is. *)
Lemma push_back_all_run ptrs bufs (v : list T) w :
  Forall2 (designates (memory w)) ptrs bufs ->
  push_back_all T ptrs v w = Some (v ++ map from_wcs bufs, w).
Proof.
  intros Hd. revert v. induction Hd as [|p buf ptrs bufs Hp _ IH]; intros v.
  - simpl. run_step. by rewrite app_nil_r.
  - simpl. run_step. rewrite (deref_designates _ _ _ Hp).
    rewrite IH. unfold push_back. by rewrite <- app_assoc.
Qed.

Lemma MeasurePushBackAndSort_body_run ptrs bufs description w :
  Forall2 (designates (memory w)) ptrs bufs ->
  MeasurePushBackAndSort_body T ptrs description w =
    Some ((sample_at w (qpc_calls w) description, sort (map from_wcs bufs)),
          after_run w (EvRun strategy ptrs description)).
Proof.
  intros Hd. unfold MeasurePushBackAndSort_body. run_step.
  rewrite (push_back_all_run ptrs bufs); [|done]. done.
Qed.

Lemma MeasurePushBackAndSort_run ptrs bufs description w :
  Forall2 (designates (memory w)) ptrs bufs ->
  MeasurePushBackAndSort T ptrs description w =
    Some (sample_at w (qpc_calls w) description,
          after_run w (EvRun strategy ptrs description)).
Proof.
  intros Hd. unfold MeasurePushBackAndSort. run_step.
  fold (MeasurePushBackAndSort_body T ptrs description w).
  by rewrite (MeasurePushBackAndSort_body_run ptrs bufs).
Qed.

(** Whatever the pointers, a run that returns has left the memory, the
    console and the frequency alone. *)
Lemma push_back_all_frame ptrs (v v' : list T) w w' :
  push_back_all T ptrs v w = Some (v', w') -> w' = w.
Proof.
  revert v. induction ptrs as [|p ptrs IH]; intros v; simpl; run_step.
  - congruence.
  - unfold deref. destruct (memory w !! p) as [buf|]; [|done].
    destruct (nul_terminated buf); [|done]. apply IH.
Qed.

Lemma MeasurePushBackAndSort_frame ptrs description perf w w' :
  MeasurePushBackAndSort T ptrs description w = Some (perf, w') ->
  memory w' = memory w /\ console w' = console w /\ qpf w' = qpf w /\
  qpc w' = qpc w /\
  events w' = EvRun strategy ptrs description :: events w.
Proof.
  unfold MeasurePushBackAndSort, MeasurePushBackAndSort_body. run_step.
  match goal with |- context [push_back_all T ptrs [] ?w1] =>
    destruct (push_back_all T ptrs [] w1) as [[v w2]|] eqn:Hv; [|done] end.
  apply push_back_all_frame in Hv as ->. simpl.
  intros [= <- <-]. done.
Qed.
End RunnerFacts.

(** ** The sort step (C1) and the three-string scenario (C5) *)

(** C1.  For every sequence of pointers to C strings and either string
    strategy, the runner returns; the vector after its sort step is in
    non-decreasing lexicographic order and is a rearrangement of the
    strings the insertion loop put in, one per pointer, each holding the
    text its pointer designates: nothing is lost, nothing duplicated. *)
Theorem C1_sort_step_sorted_permutation
    (s : Strategy) (shuffled_ptrs : list ptr) (description : string) (w : World) :
  Forall (fun p => is_Some (c_string_at (memory w) p)) shuffled_ptrs ->
  exists (inserted v : list (StringOf s)) perf w',
    (forall w1, memory w1 = memory w ->
       push_back_all (StringOf s) shuffled_ptrs [] w1 = Some (inserted, w1)) /\
    MeasurePushBackAndSort_body (StringOf s) shuffled_ptrs description w
      = Some ((perf, v), w') /\
    sorted_lex v /\
    v ≡ₚ inserted /\
    length v = length shuffled_ptrs /\
    map (c_string_at (memory w)) shuffled_ptrs = map (fun x => Some (chars x)) inserted.
Proof.
  intros Hvalid.
  destruct (designated_buffers _ _ Hvalid) as (bufs & Hd & Htexts).
  exists (map from_wcs bufs), (sort (map from_wcs bufs)).
  eexists _, _. split; [|split; [|split; [|split; [|split]]]].
  - intros w1 Hm. rewrite (push_back_all_run shuffled_ptrs bufs); [done|].
    by rewrite Hm.
  - by apply MeasurePushBackAndSort_body_run.
  - apply sort_sorted.
  - apply sort_Permutation.
  - rewrite sort_Permutation, length_map. symmetry. by eapply Forall2_length.
  - rewrite Htexts, map_map. apply map_ext. intros buf.
    by rewrite chars_from_wcs.
Qed.

Lemma C1_sort_step_sorted_permutation_witness :
  let w := {| qpc n := Z.of_nat n; qpc_calls := 0; qpf := 10;
              memory := [wliteral "b" ++ [NUL]; wliteral "a" ++ [NUL]];
              console := EmptyString; events := [] |} in
  Forall (fun p => is_Some (c_string_at (memory w) p)) [0; 1; 0]%nat /\
  exists (inserted v : list (StringOf STL)) perf w',
    (forall w1, memory w1 = memory w ->
       push_back_all (StringOf STL) [0; 1; 0]%nat [] w1 = Some (inserted, w1)) /\
    MeasurePushBackAndSort_body (StringOf STL) [0; 1; 0]%nat "run" w
      = Some ((perf, v), w') /\
    sorted_lex v /\
    v ≡ₚ inserted /\
    length v = 3%nat /\
    map (c_string_at (memory w)) [0; 1; 0]%nat = map (fun x => Some (chars x)) inserted.
Proof.
  intros w.
  assert (Forall (fun p => is_Some (c_string_at (memory w) p)) [0; 1; 0]%nat) as Hv.
  { repeat constructor; vm_compute; eauto. }
  split; [exact Hv|].
  exact (C1_sort_step_sorted_permutation STL [0; 1; 0]%nat "run" w Hv).
Defined.

(** C5.  With pointers to the three C strings "#2", "#0", "#1", in that
    order, and either strategy, the runner returns; the vector after the
    sort step iterates as "#0", "#1", "#2", and the sample carries the
    label it was given. *)
Theorem C5_three_strings_scenario
    (s : Strategy) (shuffled_ptrs : list ptr) (label : string) (w : World) :
  map (c_string_at (memory w)) shuffled_ptrs
    = [Some (wliteral "#2"); Some (wliteral "#0"); Some (wliteral "#1")] ->
  exists (v : list (StringOf s)) perf w',
    MeasurePushBackAndSort_body (StringOf s) shuffled_ptrs label w
      = Some ((perf, v), w') /\
    MeasurePushBackAndSort (StringOf s) shuffled_ptrs label w = Some (perf, w') /\
    map chars v = [wliteral "#0"; wliteral "#1"; wliteral "#2"] /\
    Description perf = label.
Proof.
  intros Htexts.
  assert (Forall (fun p => is_Some (c_string_at (memory w) p)) shuffled_ptrs) as Hvalid.
  { apply Forall_forall. intros p Hp.
    apply (list_elem_of_fmap_2 (c_string_at (memory w))) in Hp.
    change (c_string_at (memory w) <$> shuffled_ptrs)
      with (map (c_string_at (memory w)) shuffled_ptrs) in Hp.
    rewrite Htexts in Hp.
    repeat (apply elem_of_cons in Hp as [->|Hp]; [by eexists|]).
    by apply elem_of_nil in Hp. }
  destruct (designated_buffers _ _ Hvalid) as (bufs & Hd & Hbufs).
  rewrite Htexts in Hbufs.
  destruct bufs as [|b2 [|b0 [|b1 [|? ?]]]]; try done.
  injection Hbufs as H2 H0 H1.
  eexists _, _, _. split; [|split; [|split]].
  - by apply MeasurePushBackAndSort_body_run.
  - by eapply MeasurePushBackAndSort_run.
  - unfold sort; simpl.
    rewrite !less_lex, !chars_from_wcs, <- H0, <- H1; simpl.
    rewrite !less_lex, !chars_from_wcs, <- H0, <- H1, <- H2; simpl.
    rewrite !chars_from_wcs, <- H0, <- H1, <- H2. done.
  - done.
Qed.

Lemma C5_three_strings_scenario_witness :
  let w := {| qpc n := 7 * Z.of_nat n; qpc_calls := 0; qpf := 1000;
              memory := [wliteral "#2" ++ [NUL]; wliteral "#0" ++ [NUL];
                         wliteral "#1" ++ [NUL]];
              console := EmptyString; events := [] |} in
  exists (v : list (StringOf ATL)) perf w',
    MeasurePushBackAndSort_body (StringOf ATL) [0; 1; 2]%nat "ATL1" w
      = Some ((perf, v), w') /\
    MeasurePushBackAndSort (StringOf ATL) [0; 1; 2]%nat "ATL1" w = Some (perf, w') /\
    map chars v = [wliteral "#0"; wliteral "#1"; wliteral "#2"] /\
    Description perf = "ATL1"%string.
Proof.
  intros w.
  apply (C5_three_strings_scenario ATL [0; 1; 2]%nat "ATL1" w).
  vm_compute. reflexivity.
Defined.

(** ** Decimal text *)

Lemma decimal_value_snoc ds d : decimal_value (ds ++ [d]) = 10 * decimal_value ds + d.
Proof. unfold decimal_value. by rewrite fold_left_app. Qed.

(** The digit loop writes, in front of what is there, the canonical digits
    of its argument. *)
Lemma decimal_digits_aux_spec fuel n acc :
  (1 <= fuel)%nat -> 0 <= n < 10 ^ Z.of_nat fuel ->
  exists ds, decimal_digits_aux fuel n acc = ds ++ acc /\
             decimal_value ds = n /\ canonical_digits ds /\
             (0 < n -> exists d ds', ds = d :: ds' /\ d <> 0).
Proof.
  revert n acc. induction fuel as [|fuel IH]; intros n acc Hf Hn; [lia|].
  simpl decimal_digits_aux.
  assert (0 <= n mod 10 < 10) as Hmod by (apply Z.mod_pos_bound; lia).
  assert (n = 10 * (n / 10) + n mod 10) as Hdiv by (apply Z.div_mod; lia).
  destruct (Z.eqb_spec (n / 10) 0) as [Hq|Hq].
  - exists [n mod 10]. rewrite Hq in Hdiv.
    replace (n mod 10) with n by lia. simpl.
    split; [done|]. split; [unfold decimal_value; simpl; lia|].
    split; [split|].
    + repeat constructor; unfold is_digit; lia.
    + destruct (decide (n = 0)) as [->|]; [by left|right; by eexists _, _].
    + intros Hpos. eexists _, _. split; [done|lia].
  - assert (0 < n / 10) as Hqpos.
    { assert (0 <= n / 10) by (apply Z.div_pos; lia). lia. }
    assert (n / 10 < 10 ^ Z.of_nat fuel) as Hlt.
    { apply Z.div_lt_upper_bound; [lia|].
      replace (Z.of_nat (S fuel)) with (1 + Z.of_nat fuel) in Hn by lia.
      rewrite Z.pow_add_r in Hn by lia. lia. }
    assert (1 <= fuel)%nat.
    { destruct fuel; [simpl in Hlt|]; lia. }
    destruct (IH (n / 10) (n mod 10 :: acc)) as (ds & Heq & Hval & [Hdig _] & Hhd);
      [lia|lia|].
    destruct (Hhd Hqpos) as (d & ds' & -> & Hd).
    exists ((d :: ds') ++ [n mod 10]).
    split; [|split; [|split; [split|]]].
    + rewrite Heq. by rewrite <- app_assoc.
    + rewrite decimal_value_snoc, Hval. lia.
    + apply Forall_app. split; [done|]. repeat constructor; unfold is_digit; lia.
    + right. by eexists _, _.
    + intros _. by eexists _, _.
Qed.

Lemma decimal_digits_fuel n : 0 <= n -> n < 10 ^ Z.of_nat (S (Z.to_nat (Z.log2 n))).
Proof.
  intros Hn. destruct (decide (n = 0)) as [->|Hn0]; [done|].
  assert (0 <= Z.log2 n) by apply Z.log2_nonneg.
  replace (Z.of_nat (S (Z.to_nat (Z.log2 n)))) with (Z.succ (Z.log2 n)) by lia.
  assert (n < 2 ^ Z.succ (Z.log2 n)) by (apply Z.log2_spec; lia).
  assert (2 ^ Z.succ (Z.log2 n) <= 10 ^ Z.succ (Z.log2 n))
    by (apply Z.pow_le_mono_l; lia).
  lia.
Qed.

(** [decimal_digits n] is the canonical decimal representation of [n]. *)
Lemma decimal_digits_spec n :
  0 <= n -> decimal_value (decimal_digits n) = n /\ canonical_digits (decimal_digits n).
Proof.
  intros Hn. unfold decimal_digits.
  destruct (decimal_digits_aux_spec (S (Z.to_nat (Z.log2 n))) n [])
    as (ds & -> & Hval & Hcan & _).
  { lia. }
  { split; [done|]. by apply decimal_digits_fuel. }
  by rewrite app_nil_r.
Qed.

Lemma decimal_digits_inj n m :
  0 <= n -> 0 <= m -> decimal_digits n = decimal_digits m -> n = m.
Proof.
  intros Hn Hm Heq.
  rewrite <- (proj1 (decimal_digits_spec n Hn)), <- (proj1 (decimal_digits_spec m Hm)).
  by rewrite Heq.
Qed.

(** A number below [10^k] has at most [k] digits. *)
Lemma decimal_digits_aux_length fuel n acc k :
  0 <= n < 10 ^ Z.of_nat k -> (1 <= k)%nat ->
  (length (decimal_digits_aux fuel n acc) <= k + length acc)%nat.
Proof.
  revert n acc k. induction fuel as [|fuel IH]; intros n acc k Hn Hk; simpl.
  { lia. }
  destruct (Z.eqb_spec (n / 10) 0) as [Hq|Hq]; simpl; [lia|].
  destruct k as [|[|k]]; [lia| |].
  - assert (n / 10 = 0) by (apply Z.div_small; simpl in Hn; lia). done.
  - etrans; [apply (IH _ _ (S k))|simpl; lia]; [|lia].
    split; [apply Z.div_pos; lia|].
    apply Z.div_lt_upper_bound; [lia|].
    replace (Z.of_nat (S (S k))) with (1 + Z.of_nat (S k)) in Hn by lia.
    rewrite Z.pow_add_r in Hn by lia. lia.
Qed.

Lemma decimal_digits_length n k :
  0 <= n < 10 ^ Z.of_nat k -> (1 <= k)%nat -> (length (decimal_digits n) <= k)%nat.
Proof.
  intros Hn Hk. unfold decimal_digits.
  etrans; [by apply (decimal_digits_aux_length _ _ _ k)|]. simpl. lia.
Qed.

Lemma wdigit_inj d e : is_digit d -> is_digit e -> wdigit d = wdigit e -> d = e.
Proof. unfold is_digit, wdigit. lia. Qed.

Lemma map_wdigit_inj ds es :
  Forall is_digit ds -> Forall is_digit es ->
  map wdigit ds = map wdigit es -> ds = es.
Proof.
  intros Hd. revert es. induction Hd as [|d ds Hd _ IH]; intros [|e es] He; try done.
  inversion_clear He. simpl. intros [= Hde Hrest].
  f_equal; [by apply wdigit_inj|by apply IH].
Qed.

(** ** The strings before the shuffle *)

(** The string the loop builds for index [i]. *)
Lemma small_string_chars i :
  0 <= i ->
  wcs_plus marker (to_wstring i) = WString (35%N :: map wdigit (decimal_digits i)).
Proof.
  intros Hi. unfold to_wstring. by destruct (Z.ltb_spec i 0); [lia|].
Qed.

Lemma wrap_int_small z : - 2 ^ 31 <= z < 2 ^ 31 -> wrap_int z = z.
Proof. intros Hz. unfold wrap_int. rewrite Z.mod_small; lia. Qed.

Lemma small_strings_spec fuel i limit v :
  0 <= i <= limit -> limit < 2 ^ 31 -> (Z.to_nat (limit - i) <= fuel)%nat ->
  small_strings fuel i limit v =
    v ++ map (fun k => wcs_plus marker (to_wstring (i + Z.of_nat k)))
             (seq 0 (Z.to_nat (limit - i))).
Proof.
  revert i v. induction fuel as [|fuel IH]; intros i v Hi Hl Hf; simpl.
  - replace (Z.to_nat (limit - i)) with 0%nat by lia. simpl. by rewrite app_nil_r.
  - destruct (Z.ltb_spec i limit).
    + rewrite wrap_int_small by lia. rewrite IH by lia.
      replace (Z.to_nat (limit - i)) with (S (Z.to_nat (limit - (i + 1)))) by lia.
      unfold push_back. rewrite <- app_assoc. simpl. f_equal.
      rewrite Z.add_0_r. f_equal.
      rewrite <- seq_shift, map_map. apply map_ext. intros k. do 2 f_equal. lia.
    + replace (Z.to_nat (limit - i)) with 0%nat by lia. simpl. by rewrite app_nil_r.
Qed.

Lemma corpus_spec count :
  0 <= count < 2 ^ 31 ->
  corpus count =
    map (fun k => wcs_plus marker (to_wstring (Z.of_nat k))) (seq 0 (Z.to_nat count)).
Proof.
  intros Hc. unfold corpus. rewrite small_strings_spec by lia.
  simpl. by rewrite Z.sub_0_r.
Qed.

Lemma corpus_length count : 0 <= count < 2 ^ 31 -> length (corpus count) = Z.to_nat count.
Proof. intros Hc. by rewrite corpus_spec, length_map, length_seq. Qed.


Lemma corpus_NoDup count : 0 <= count < 2 ^ 31 -> NoDup (corpus count).
Proof.
  intros Hc. rewrite corpus_spec by lia.
  change (map ?f ?l) with (f <$> l).
  apply NoDup_fmap_2_strong; [|apply NoDup_seq].
  intros j k _ _. rewrite !small_string_chars by lia.
  intros [= Heq]. apply map_wdigit_inj in Heq.
  - apply decimal_digits_inj in Heq; lia.
  - apply decimal_digits_spec; lia.
  - apply decimal_digits_spec; lia.
Qed.



(** ** [std::shuffle] *)

Section ShuffleFacts.
Context {A : Type}.
Variable index_below : mt19937 -> Z -> Z * mt19937.

Lemma swap_Permutation (v : list A) i j : swap v i j ≡ₚ v.
Proof.
  unfold swap.
  destruct (v !! i) as [a|] eqn:Hi; [|done].
  destruct (v !! j) as [b|] eqn:Hj; [|done].
  by apply Permutation_insert_swap.
Qed.

Lemma swap_length (v : list A) i j : length (swap v i j) = length v.
Proof. by rewrite swap_Permutation. Qed.

Lemma swap_lookup_other (v : list A) i j k :
  k <> i -> k <> j -> swap v i j !! k = v !! k.
Proof.
  intros Hi Hj. unfold swap.
  destruct (v !! i) as [a|]; [|done].
  destruct (v !! j) as [b|]; [|done].
  by rewrite !list_lookup_insert_ne.
Qed.

Lemma swap_lookup_l (v : list A) i j b :
  (i < length v)%nat -> v !! j = Some b -> swap v i j !! i = Some b.
Proof.
  intros Hi Hj. unfold swap.
  destruct (lookup_lt_is_Some_2 v i Hi) as [a ->]. rewrite Hj.
  apply list_lookup_insert_eq. by rewrite length_insert.
Qed.

(** The shuffle rearranges, whatever the draws are. *)
Lemma shuffle_from_Permutation steps target (v : list A) g :
  fst (shuffle_from index_below steps target v g) ≡ₚ v.
Proof.
  revert target v g. induction steps as [|steps IH]; intros target v g; simpl.
  - done.
  - destruct (index_below g (target + 1)) as [off g'].
    rewrite IH. destruct (off =? target); [done|apply swap_Permutation].
Qed.

Lemma shuffle_Permutation (v : list A) g : fst (shuffle index_below v g) ≡ₚ v.
Proof. apply shuffle_from_Permutation. Qed.

(** The engine after the draws does not depend on the vector. *)
Lemma shuffle_from_engine steps target (v v' : list A) g :
  snd (shuffle_from index_below steps target v g)
  = snd (shuffle_from index_below steps target v' g).
Proof.
  revert target v v' g. induction steps as [|steps IH]; intros; simpl; [done|].
  destruct (index_below g (target + 1)) as [off g']. apply IH.
Qed.

Lemma shuffle_from_app steps1 steps2 target (v : list A) g :
  shuffle_from index_below (steps1 + steps2) target v g
  = let '(v1, g1) := shuffle_from index_below steps1 target v g in
    shuffle_from index_below steps2 (target + Z.of_nat steps1) v1 g1.
Proof.
  revert target v g. induction steps1 as [|steps1 IH]; intros target v g.
  - simpl. by rewrite Z.add_0_r.
  - cbn [Nat.add shuffle_from].
    destruct (index_below g (target + 1)) as [off g'].
    rewrite IH.
    destruct (shuffle_from _ steps1 _ _ g') as [v1 g1].
    f_equal. lia.
Qed.

Lemma shuffle_draws_app steps1 steps2 target (v : list A) g :
  shuffle_draws index_below (steps1 + steps2) target g
  = shuffle_draws index_below steps1 target g ++
    shuffle_draws index_below steps2 (target + Z.of_nat steps1)
      (snd (shuffle_from index_below steps1 target v g)).
Proof.
  revert target v g. induction steps1 as [|steps1 IH]; intros target v g.
  - simpl. by rewrite Z.add_0_r.
  - cbn [Nat.add shuffle_draws shuffle_from].
    destruct (index_below g (target + 1)) as [off g'].
    rewrite (IH _ (if off =? target then v
                   else swap v (Z.to_nat target) (Z.to_nat off))).
    simpl. do 3 f_equal. lia.
Qed.

Lemma draws_in_range_app target ds1 ds2 :
  draws_in_range target (ds1 ++ ds2)
  = draws_in_range target ds1 && draws_in_range (target + Z.of_nat (length ds1)) ds2.
Proof.
  revert target. induction ds1 as [|d ds1 IH]; intros target; simpl.
  - by rewrite Z.add_0_r.
  - rewrite IH, <- !andb_assoc.
    by replace (target + 1 + Z.of_nat (length ds1))
      with (target + Z.of_nat (S (length ds1))) by lia.
Qed.

Lemma shuffle_draws_length steps target g :
  length (shuffle_draws index_below steps target g) = steps.
Proof.
  revert target g. induction steps as [|steps IH]; intros; simpl; [done|].
  destruct (index_below g (target + 1)). simpl. by rewrite IH.
Qed.

(** While the draws stay in range, the positions the shuffle has not
    reached yet hold what they held. *)
Lemma shuffle_from_beyond steps target (v : list A) g k :
  0 <= target ->
  draws_in_range target (shuffle_draws index_below steps target g) = true ->
  target + Z.of_nat steps <= Z.of_nat k ->
  fst (shuffle_from index_below steps target v g) !! k = v !! k.
Proof.
  revert target v g. induction steps as [|steps IH]; intros target v g Ht Hd Hk;
    simpl in *; [done|].
  destruct (index_below g (target + 1)) as [off g']. simpl in Hd.
  apply andb_prop in Hd as [Hoff Hd]. apply andb_prop in Hoff as [Hoff1 Hoff2].
  rewrite IH; [|lia|done|lia].
  destruct (off =? target); [done|].
  apply swap_lookup_other; lia.
Qed.

(** If the draws are in range and the last one is not the last position,
    the last position ends up with another element. *)
Lemma shuffle_moves_last (v : list A) g d :
  NoDup v ->
  let ds := shuffle_draws index_below (length v - 1) 1 g in
  draws_in_range 1 ds = true ->
  last ds = Some d -> d <> Z.of_nat (length v) - 1 ->
  fst (shuffle index_below v g) <> v.
Proof.
  intros Hnd. cbv zeta. intros Hrange Hlast Hd Heq.
  unfold shuffle in Heq.
  destruct (length v) as [|[|n]] eqn:Hn; [by simpl in *..|].
  set (k := S n) in *.
  replace (S k - 1)%nat with (n + 1)%nat in * by lia.
  rewrite (shuffle_draws_app _ _ _ v) in Hrange, Hlast.
  rewrite shuffle_from_app in Heq.
  pose proof (shuffle_from_Permutation n 1 v g) as Hperm.
  pose proof (shuffle_from_beyond n 1 v g k) as Hkeep.
  rewrite draws_in_range_app, shuffle_draws_length in Hrange.
  apply andb_prop in Hrange as [Hr1 Hr2].
  specialize (Hkeep ltac:(lia) Hr1 ltac:(lia)).
  destruct (shuffle_from index_below n 1 v g) as [v1 g1]. simpl in *.
  destruct (index_below g1 (1 + Z.of_nat n + 1)) as [off g2]. simpl in *.
  rewrite last_snoc in Hlast. injection Hlast as ->.
  apply andb_prop in Hr2 as [Hr2 _]. apply andb_prop in Hr2 as [Hlo Hhi].
  destruct (Z.eqb_spec d (1 + Z.of_nat n)) as [|_]; [lia|].
  assert (Z.to_nat (1 + Z.of_nat n) = k) as Hk by lia. rewrite Hk in Heq.
  assert (length v1 = S k) as Hlen1 by by rewrite Hperm.
  assert (Z.to_nat d < k)%nat as Hdk by lia.
  destruct (lookup_lt_is_Some_2 v1 (Z.to_nat d)) as [y Hy]; [lia|].
  assert (swap v1 k (Z.to_nat d) !! k = Some y) as Hsw
    by (apply swap_lookup_l; [lia|done]).
  rewrite Heq, <- Hkeep in Hsw.
  assert (NoDup v1) as Hnd1 by by rewrite Hperm.
  pose proof (NoDup_lookup v1 _ _ _ Hnd1 Hsw Hy). lia.
Qed.
End ShuffleFacts.

(** The single pass over the draws of [Rng_from_urng] tells what the
    draws are like. *)
Lemma Rng_draws_check_sound steps target g prev d :
  Rng_draws_check steps target g prev = (true, d) ->
  draws_in_range target (shuffle_draws Rng_from_urng steps target g) = true /\
  (steps <> 0%nat -> last (shuffle_draws Rng_from_urng steps target g) = Some d).
Proof.
  revert target g prev. induction steps as [|steps IH]; intros target g prev.
  { done. }
  cbn [Rng_draws_check shuffle_draws].
  assert (Rng_from_urng g (target + 1)
          = snd (Rng_from_urng_fuel 64 g (target + 1))) as -> by done.
  destruct (Rng_from_urng_fuel 64 g (target + 1)) as [ok [off g']].
  cbn [snd draws_in_range].
  destruct ok; cbn [andb]; [|done].
  destruct (0 <=? off); cbn [andb]; [|done].
  destruct (off <=? target); cbn [andb]; [|done].
  intros Hc. destruct (IH _ _ _ Hc) as [Hr Hl]. split; [done|]. intros _.
  destruct steps as [|steps].
  - cbn [Rng_draws_check] in Hc. by injection Hc as ->.
  - by rewrite last_cons, Hl.
Qed.

(** ** The shuffled strings (C4, C10) *)

Lemma shuffled_strings_Permutation index_below count seed :
  shuffled_strings index_below count seed ≡ₚ corpus count.
Proof. apply shuffle_Permutation. Qed.

(** The draws of the program's shuffle with the library's adapter: all
    199,999 are accepted within the bound and in range, and the last one
    is position 3373. *)
Lemma Rng_draws_check_main :
  Rng_draws_check (Z.to_nat 200000 - 1) 1 (mt19937_seed 64) 0 = (true, 3373).
Proof. vm_cast_no_check (eq_refl (true, 3373)). Qed.

(** C4.  The shuffle rearranges: for any vector, engine and way of
    drawing indexes, the shuffled vector is a permutation of the vector
    before the shuffle, and so are the program's shuffled strings of its
    corpus.  With 200,000 strings, seed 64 and the index adapter of
    Microsoft's library, the shuffled order is not the original one. *)
Theorem C4_shuffle_permutation_not_identity :
  (forall (A : Type) index_below (v : list A) g,
     fst (shuffle index_below v g) ≡ₚ v) /\
  (forall index_below count seed,
     shuffled_strings index_below count seed ≡ₚ corpus count) /\
  shuffled_strings Rng_from_urng (200 * 1000) 64 <> corpus (200 * 1000).
Proof.
  split; [|split].
  - intros. apply shuffle_Permutation.
  - apply shuffled_strings_Permutation.
  - change (200 * 1000) with 200000. unfold shuffled_strings.
    destruct (Rng_draws_check_sound _ _ _ _ _ Rng_draws_check_main) as [Hr Hl].
    assert (length (corpus 200000) = Z.to_nat 200000) as Hlen
      by (apply corpus_length; lia).
    apply (shuffle_moves_last _ _ _ 3373).
    + apply corpus_NoDup. lia.
    + by rewrite Hlen.
    + rewrite Hlen. apply Hl. lia.
    + rewrite Hlen. lia.
Qed.

Lemma small_string_short k :
  0 <= k < 200000 ->
  exists ds, ws_chars (wcs_plus marker (to_wstring k)) = 35%N :: ds /\
             (length ds <= 6)%nat.
Proof.
  intros Hk. rewrite small_string_chars by lia. eexists. split; [done|].
  rewrite length_map. apply decimal_digits_length; [|lia].
  change (10 ^ Z.of_nat 6) with 1000000. lia.
Qed.

(** C10.  Every string of the corpus is the marker followed by at most
    six characters, so no string is longer than seven characters; the
    same bound holds for the shuffled strings, whatever the shuffle
    draws. *)
Theorem C10_corpus_strings_short :
  Forall (fun s => exists ds, ws_chars s = 35%N :: ds /\ (length ds <= 6)%nat)
         (corpus (200 * 1000)) /\
  Forall (fun s => (length (ws_chars s) <= 7)%nat) (corpus (200 * 1000)) /\
  (forall index_below,
     Forall (fun s => (length (ws_chars s) <= 7)%nat)
            (shuffled_strings index_below (200 * 1000) 64)).
Proof.
  assert (Forall (fun s => exists ds, ws_chars s = 35%N :: ds /\ (length ds <= 6)%nat)
                 (corpus (200 * 1000))) as Hshort.
  { rewrite corpus_spec by lia. apply Forall_map, Forall_forall.
    intros k Hk. apply elem_of_seq in Hk. apply small_string_short. lia. }
  assert (Forall (fun s => (length (ws_chars s) <= 7)%nat) (corpus (200 * 1000))) as H7.
  { eapply Forall_impl; [exact Hshort|].
    intros s (ds & -> & Hds). simpl. by apply le_n_S. }
  split; [done|]. split; [done|].
  intros index_below. by rewrite shuffled_strings_Permutation.
Qed.

(** ** The printer *)

Lemma string_app_assoc (a b c : string) : ((a ++ b) ++ c = a ++ b ++ c)%string.
Proof. induction a as [|x a IH]; simpl; [done|]. by rewrite IH. Qed.

Lemma string_app_empty_r (a : string) : (a ++ EmptyString)%string = a.
Proof. induction a as [|x a IH]; simpl; [done|]. by rewrite IH. Qed.

Lemma PrintTime_run perf_data w :
  PrintTime perf_data w = Some (tt, after_print w perf_data).
Proof.
  destruct w as [q n f m c e].
  cbv beta iota zeta delta [PrintTime after_print log cout mbind M_bind bind
    qpc qpc_calls qpf memory console events].
  do 3 f_equal. unfold unlines, report_lines; simpl.
  by rewrite !string_app_assoc, ?string_app_empty_r.
Qed.

(** ** The program *)

Lemma push_back_c_str_spec shuffled v :
  push_back_c_str shuffled v = v ++ map c_str shuffled.
Proof.
  revert v. induction shuffled as [|s rest IH]; intros v; simpl.
  - by rewrite app_nil_r.
  - rewrite IH. unfold push_back. by rewrite <- app_assoc.
Qed.

Lemma map_c_str_imap base (v : list wstring) :
  map c_str (imap (fun i s => {| c_str := (base + i)%nat; ws_value := s |}) v)
  = seq base (length v).
Proof.
  revert base. induction v as [|s v IH]; intros base; [done|].
  rewrite imap_cons. simpl. rewrite Nat.add_0_r. f_equal.
  rewrite <- IH. f_equal. apply imap_ext. intros i x _. simpl. f_equal. lia.
Qed.

Lemma observing_ptrs_placed base (v : list wstring) :
  observing_ptrs (imap (fun i s => {| c_str := (base + i)%nat; ws_value := s |}) v)
  = corpus_ptrs base v.
Proof. unfold observing_ptrs. by rewrite push_back_c_str_spec, map_c_str_imap. Qed.

(** After the strings are placed, the [i]-th pointer designates the
    buffer of the [i]-th string. *)
Lemma corpus_ptrs_designate (m : list (list wchar_t)) (shuffled : list wstring) :
  Forall2 (designates (m ++ map ws_buffer shuffled))
          (corpus_ptrs (length m) shuffled) (map ws_buffer shuffled).
Proof.
  unfold corpus_ptrs. apply Forall2_same_length_lookup_2.
  - by rewrite length_seq, length_map.
  - intros i p buf Hp Hbuf. apply lookup_seq in Hp as [-> Hi].
    split.
    + by rewrite lookup_app_r, Nat.add_comm, Nat.add_sub by lia.
    + change (map ?f ?l) with (f <$> l) in Hbuf.
      apply list_lookup_fmap_Some in Hbuf as (s & -> & _).
      apply nul_terminated_buffer.
Qed.

Lemma run_and_print_frame s ptrs description w :
  memory (run_and_print s ptrs description w) = memory w /\
  qpf (run_and_print s ptrs description w) = qpf w /\
  qpc (run_and_print s ptrs description w) = qpc w /\
  qpc_calls (run_and_print s ptrs description w) = (4 + qpc_calls w)%nat.
Proof. done. Qed.

(** One run followed by the printing of its sample. *)
Lemma run_then_print (s : Strategy) ptrs bufs description w :
  Forall2 (designates (memory w)) ptrs bufs ->
  (MeasurePushBackAndSort (StringOf s) ptrs description ≫= PrintTime) w
  = Some (tt, run_and_print s ptrs description w).
Proof.
  intros Hd. run_step.
  fold (MeasurePushBackAndSort (StringOf s) ptrs description w).
  rewrite (MeasurePushBackAndSort_run ptrs bufs) by done.
  rewrite PrintTime_run. by destruct s.
Qed.

Lemma worlds_of_runs_memory runs ptrs w :
  memory (snd (worlds_of_runs runs ptrs w)) = memory w /\
  Forall (fun wk => memory wk = memory w) (fst (worlds_of_runs runs ptrs w)).
Proof.
  revert w. induction runs as [|[s description] runs IH]; intros w; simpl.
  - done.
  - destruct (IH (run_and_print s ptrs description w)) as [IH1 IH2].
    destruct (worlds_of_runs runs ptrs _) as [ws w']. simpl in *.
    split; [done|]. constructor; [done|].
    eapply Forall_impl; [exact IH2|]. intros wk ->. done.
Qed.

Section ProgramFacts.
Variable WIN64 : bool.
Variable index_below : mt19937 -> Z -> Z * mt19937.

Lemma banner_run w :
  banner WIN64 w = Some (tt, world_before_runs WIN64 [] w).
Proof.
  destruct w as [q n f m c e].
  destruct WIN64;
    cbv beta iota zeta delta [banner world_before_runs cout mbind M_bind bind
      mret M_ret ret qpc qpc_calls qpf memory console events];
    rewrite app_nil_r; do 3 f_equal; unfold banner_text;
    by rewrite !string_app_assoc, ?string_app_empty_r.
Qed.

(** [main] always returns, in the world that the banner, the placing of
    the shuffled strings and the six runs with their reports lead to. *)
Lemma benchmark_run count seed w :
  let shuffled := shuffled_strings index_below count seed in
  let ptrs := corpus_ptrs (length (memory w)) shuffled in
  benchmark WIN64 index_below count seed w
  = Some (0, snd (worlds_of_runs six_runs ptrs
                    (world_before_runs WIN64 shuffled w))).
Proof.
  intros shuffled ptrs. unfold benchmark.
  unfold mbind at 1. unfold M_bind at 1. unfold bind at 1.
  rewrite banner_run.
  unfold mbind at 1. unfold M_bind at 1. unfold bind at 1.
  unfold place_strings at 1. cbn [memory world_before_runs].
  rewrite app_nil_r. rewrite observing_ptrs_placed.
  fold shuffled. fold ptrs.
  set (w0 := world_before_runs WIN64 shuffled w).
  match goal with |- _ ?w1 = _ => change w1 with w0 end.
  change (MeasurePushBackAndSort CStringW)
    with (MeasurePushBackAndSort (StringOf ATL)).
  change (MeasurePushBackAndSort wstring)
    with (MeasurePushBackAndSort (StringOf STL)).
  assert (forall wk, memory wk = memory w0 ->
            Forall2 (designates (memory wk)) ptrs (map ws_buffer shuffled)) as Hd.
  { intros wk ->. apply corpus_ptrs_designate. }
  cbn [six_runs worlds_of_runs].
  repeat (unfold mbind at 1; unfold M_bind at 1; unfold bind at 1;
          erewrite run_then_print by (apply Hd; done)).
  done.
Qed.
End ProgramFacts.

(** ** The report (C7) *)


(** ** Sequencing (C8), the shared view (C9), determinism (C3) *)

Section MainFacts.
Variable WIN64 : bool.
Variable index_below : mt19937 -> Z -> Z * mt19937.

Lemma main_run w :
  let shuffled := shuffled_strings index_below (200 * 1000) 64 in
  let ptrs := corpus_ptrs (length (memory w)) shuffled in
  main WIN64 index_below w
  = Some (0, snd (worlds_of_runs six_runs ptrs
                    (world_before_runs WIN64 shuffled w))).
Proof. apply benchmark_run. Qed.
End MainFacts.

(** C8.  [main] returns, and what happened in between is, in this order
    and with nothing else: a run of the runner for ATL's string labelled
    "ATL1", the printing of the sample that run returned, a run for the
    STL's string labelled "STL1", the printing of its sample, and so on
    for "ATL2", "STL2", "ATL3", "STL3": six runs, strategies alternating,
    three per strategy.  Each printed sample is computed from the four
    counter readings of its own run, and the console receives the banner
    and the six reports one after the other. *)
Theorem C8_six_runs_each_printed (WIN64 : bool)
    (index_below : mt19937 -> Z -> Z * mt19937) (w : World) :
  let ptrs := corpus_ptrs (length (memory w))
                (shuffled_strings index_below (200 * 1000) 64) in
  let sample k label := sample_of (qpc w) (qpf w) (4 * k + qpc_calls w) label in
  exists w',
    main WIN64 index_below w = Some (0, w') /\
    rev (events w') =
      rev (events w) ++
      [ EvRun ATL ptrs "ATL1"%string; EvPrint (sample 0%nat "ATL1"%string);
        EvRun STL ptrs "STL1"%string; EvPrint (sample 1%nat "STL1"%string);
        EvRun ATL ptrs "ATL2"%string; EvPrint (sample 2%nat "ATL2"%string);
        EvRun STL ptrs "STL2"%string; EvPrint (sample 3%nat "STL2"%string);
        EvRun ATL ptrs "ATL3"%string; EvPrint (sample 4%nat "ATL3"%string);
        EvRun STL ptrs "STL3"%string; EvPrint (sample 5%nat "STL3"%string) ] /\
    console w' =
      (console w ++ banner_text WIN64 ++
       unlines (report_lines (sample 0%nat "ATL1"%string)) ++
       unlines (report_lines (sample 1%nat "STL1"%string)) ++
       unlines (report_lines (sample 2%nat "ATL2"%string)) ++
       unlines (report_lines (sample 3%nat "STL2"%string)) ++
       unlines (report_lines (sample 4%nat "ATL3"%string)) ++
       unlines (report_lines (sample 5%nat "STL3"%string)))%string /\
    qpc_calls w' = (24 + qpc_calls w)%nat.
Proof.
  intros ptrs sample. eexists. split; [apply main_run|].
  fold ptrs. generalize ptrs. clear ptrs. intros ptrs.
  generalize (shuffled_strings index_below (200 * 1000) 64). intros shuffled.
  destruct w as [q n f m c e]. subst sample.
  cbv beta iota zeta delta [worlds_of_runs six_runs run_and_print after_print
    after_run world_before_runs sample_at qpc qpc_calls qpf memory console
    events snd fst Nat.mul Nat.add].
  split; [|split; [|done]].
  - cbn [rev]. by rewrite <- !app_assoc.
  - by rewrite !string_app_assoc.
Qed.

(** The strings the program builds hold no NUL, so the C string at the
    buffer of each is the string itself. *)
Lemma wdigit_not_NUL ds : NUL ∉ map wdigit ds.
Proof.
  induction ds as [|d ds IH]; simpl.
  - apply not_elem_of_nil.
  - apply not_elem_of_cons. split; [|done]. unfold NUL, wdigit. lia.
Qed.

Lemma small_string_no_NUL i : NUL ∉ ws_chars (wcs_plus marker (to_wstring i)).
Proof.
  unfold wcs_plus, to_wstring. cbn [ws_chars].
  change (wcs_text marker) with [35%N].
  destruct (i <? 0); cbn [ws_chars app];
    repeat (apply not_elem_of_cons; split; [done|]); apply wdigit_not_NUL.
Qed.

Lemma small_strings_no_NUL fuel i limit v :
  Forall (fun s => NUL ∉ ws_chars s) v ->
  Forall (fun s => NUL ∉ ws_chars s) (small_strings fuel i limit v).
Proof.
  revert i v. induction fuel as [|fuel IH]; intros i v Hv; simpl; [done|].
  destruct (i <? limit); [|done].
  apply IH. apply Forall_app. split; [done|].
  constructor; [apply small_string_no_NUL|constructor].
Qed.

Lemma shuffled_strings_no_NUL index_below count seed :
  Forall (fun s => NUL ∉ ws_chars s) (shuffled_strings index_below count seed).
Proof.
  rewrite shuffled_strings_Permutation. by apply small_strings_no_NUL.
Qed.

Lemma corpus_ptrs_lookup (m : list (list wchar_t)) (shuffled : list wstring) i s :
  shuffled !! i = Some s ->
  corpus_ptrs (length m) shuffled !! i = Some (length m + i)%nat /\
  (m ++ map ws_buffer shuffled) !! (length m + i)%nat = Some (ws_buffer s) /\
  (NUL ∉ ws_chars s ->
   c_string_at (m ++ map ws_buffer shuffled) (length m + i)%nat = Some (ws_chars s)).
Proof.
  intros Hs. pose proof (lookup_lt_Some _ _ _ Hs) as Hi.
  assert ((m ++ map ws_buffer shuffled) !! (length m + i)%nat = Some (ws_buffer s)) as Hb.
  { rewrite lookup_app_r by lia.
    replace (length m + i - length m)%nat with i by lia.
    change (map ?f ?l) with (f <$> l). by rewrite list_lookup_fmap, Hs. }
  split; [|split; [done|]].
  - unfold corpus_ptrs. by apply lookup_seq_lt.
  - intros Hnul. unfold c_string_at. rewrite Hb.
    unfold ws_buffer. by rewrite nul_terminated_buffer, wcs_text_buffer.
Qed.

Lemma c_string_at_corpus_ptrs (m : list (list wchar_t)) (shuffled : list wstring) :
  Forall (fun s => NUL ∉ ws_chars s) shuffled ->
  map (c_string_at (m ++ map ws_buffer shuffled)) (corpus_ptrs (length m) shuffled)
  = map (fun s => Some (ws_chars s)) shuffled.
Proof.
  intros Hnul. apply list_eq. intros i.
  change (map ?f ?l) with (f <$> l). rewrite !list_lookup_fmap.
  destruct (shuffled !! i) as [s|] eqn:Hs.
  - destruct (corpus_ptrs_lookup m shuffled i s Hs) as (-> & _ & Hc). simpl.
    f_equal. apply Hc. by eapply Forall_lookup_1 in Hnul.
  - unfold corpus_ptrs. rewrite lookup_seq_ge; [done|].
    by apply lookup_ge_None.
Qed.

(** The runs of the program add two events each, and every run is given
    the same vector of pointers. *)
Lemma worlds_of_runs_events runs ptrs w :
  exists new,
    events (snd (worlds_of_runs runs ptrs w)) = new ++ events w /\
    length new = (2 * length runs)%nat /\
    (forall s p d, EvRun s p d ∈ new -> p = ptrs).
Proof.
  revert w. induction runs as [|[s description] runs IH]; intros w.
  - exists []. split; [done|]. split; [done|]. intros ? ? ? Hin.
    by apply elem_of_nil in Hin.
  - cbn [worlds_of_runs].
    destruct (IH (run_and_print s ptrs description w)) as (new & He & Hl & Hp).
    destruct (worlds_of_runs runs ptrs _) as [ws w']. cbn [snd] in *.
    exists (new ++ [EvPrint (sample_at w (qpc_calls w) description);
                    EvRun s ptrs description]).
    split; [|split].
    + rewrite He. by rewrite <- app_assoc.
    + rewrite length_app, Hl. simpl. lia.
    + intros s' p d Hin. apply elem_of_app in Hin as [Hin|Hin]; [by eapply Hp|].
      apply elem_of_cons in Hin as [Hin|Hin]; [done|].
      apply elem_of_cons in Hin as [Hin|Hin]; [congruence|].
      by apply elem_of_nil in Hin.
Qed.

Lemma worlds_of_runs_starts runs ptrs bufs w :
  Forall2 (designates (memory w)) ptrs bufs ->
  Forall2 (fun wk run =>
             memory wk = memory w /\
             MeasurePushBackAndSort (StringOf (fst run)) ptrs (snd run) wk
             = Some (sample_at wk (qpc_calls wk) (snd run),
                     after_run wk (EvRun (fst run) ptrs (snd run))))
          (fst (worlds_of_runs runs ptrs w)) runs.
Proof.
  revert w. induction runs as [|[s description] runs IH]; intros w Hd.
  - constructor.
  - cbn [worlds_of_runs].
    specialize (IH (run_and_print s ptrs description w) Hd).
    destruct (worlds_of_runs runs ptrs _) as [ws w']. cbn [fst] in *.
    constructor.
    + split; [done|]. cbn [fst snd].
      rewrite (MeasurePushBackAndSort_run ptrs bufs) by done. by destruct s.
    + eapply Forall2_impl; [exact IH|]. by intros wk run [-> ->].
Qed.

(** C9.  The vector of pointers has the size and the order of the
    shuffled strings: its [i]-th pointer designates the buffer of the
    [i]-th shuffled string, which reads as that string.  Each of the six
    runs starts in a world whose memory is the one the strings were placed
    in, is given that same vector, and returns; no run of the runner,
    whatever it is given, changes the memory; the memory after [main] is
    still that memory. *)
Theorem C9_view_mirrors_corpus_and_is_shared (WIN64 : bool)
    (index_below : mt19937 -> Z -> Z * mt19937) (w : World) :
  let shuffled := shuffled_strings index_below (200 * 1000) 64 in
  let ptrs := corpus_ptrs (length (memory w)) shuffled in
  let w0 := world_before_runs WIN64 shuffled w in
  let starts := fst (worlds_of_runs six_runs ptrs w0) in
  exists w',
    main WIN64 index_below w = Some (0, w') /\
    length ptrs = length shuffled /\
    (forall i s, shuffled !! i = Some s ->
       exists p, ptrs !! i = Some p /\
                 memory w0 !! p = Some (ws_buffer s) /\
                 c_string_at (memory w0) p = Some (ws_chars s)) /\
    length starts = 6%nat /\
    Forall2 (fun wk run =>
               memory wk = memory w0 /\
               MeasurePushBackAndSort (StringOf (fst run)) ptrs (snd run) wk
               = Some (sample_at wk (qpc_calls wk) (snd run),
                       after_run wk (EvRun (fst run) ptrs (snd run))))
            starts six_runs /\
    (forall s p d, EvRun s p d ∈ take 12 (events w') -> p = ptrs) /\
    (forall s p d perf wa wb,
       MeasurePushBackAndSort (StringOf s) p d wa = Some (perf, wb) ->
       memory wb = memory wa) /\
    memory w' = memory w0.
Proof.
  intros shuffled ptrs w0 starts. eexists.
  split; [apply main_run|]. fold shuffled ptrs w0.
  assert (Forall2 (designates (memory w0)) ptrs (map ws_buffer shuffled)) as Hd
    by apply corpus_ptrs_designate.
  pose proof (worlds_of_runs_starts six_runs ptrs _ w0 Hd) as Hstarts.
  split; [|split; [|split; [|split; [|split; [|split]]]]].
  - apply length_seq.
  - intros i s Hs.
    destruct (corpus_ptrs_lookup (memory w) shuffled i s Hs) as (Hp & Hb & Hc).
    eexists. split; [exact Hp|]. split; [exact Hb|]. apply Hc.
    pose proof (shuffled_strings_no_NUL index_below (200 * 1000) 64) as Hnul.
    by eapply Forall_lookup_1 in Hnul.
  - unfold starts. by rewrite (Forall2_length _ _ _ Hstarts).
  - exact Hstarts.
  - destruct (worlds_of_runs_events six_runs ptrs w0) as (new & -> & Hl & Hp).
    rewrite take_app_length' by done. exact Hp.
  - intros s p d perf wa wb Hrun.
    by apply MeasurePushBackAndSort_frame in Hrun as [? _].
  - apply worlds_of_runs_memory.
Qed.

(** C3.  Two executions of the program, from any two process states, both
    return; the strings they place in memory are the same, in the same
    order, and the pointers each run of the runner is given read, in both
    executions, as the same sequence of texts: that of the strings
    shuffled with seed 64. *)
Theorem C3_shuffle_is_deterministic (WIN64a WIN64b : bool)
    (index_below : mt19937 -> Z -> Z * mt19937) (wa wb : World) :
  exists wa' wb',
    main WIN64a index_below wa = Some (0, wa') /\
    main WIN64b index_below wb = Some (0, wb') /\
    drop (length (memory wa)) (memory wa') = drop (length (memory wb)) (memory wb') /\
    (forall s p d, EvRun s p d ∈ take 12 (events wa') ->
       map (c_string_at (memory wa')) p
       = map (fun x => Some (ws_chars x))
             (shuffled_strings index_below (200 * 1000) 64)) /\
    (forall s p d, EvRun s p d ∈ take 12 (events wb') ->
       map (c_string_at (memory wb')) p
       = map (fun x => Some (ws_chars x))
             (shuffled_strings index_below (200 * 1000) 64)).
Proof.
  assert (forall WIN64 w,
    let w' := snd (worlds_of_runs six_runs
                     (corpus_ptrs (length (memory w))
                        (shuffled_strings index_below (200 * 1000) 64))
                     (world_before_runs WIN64
                        (shuffled_strings index_below (200 * 1000) 64) w)) in
    drop (length (memory w)) (memory w')
      = map ws_buffer (shuffled_strings index_below (200 * 1000) 64) /\
    (forall s p d, EvRun s p d ∈ take 12 (events w') ->
       map (c_string_at (memory w')) p
       = map (fun x => Some (ws_chars x))
             (shuffled_strings index_below (200 * 1000) 64))) as Hrun.
  { intros WIN64 w.
    generalize (shuffled_strings_no_NUL index_below (200 * 1000) 64).
    generalize (shuffled_strings index_below (200 * 1000) 64).
    intros shuffled Hnul w'. subst w'.
    set (ptrs := corpus_ptrs (length (memory w)) shuffled).
    set (w0 := world_before_runs WIN64 shuffled w).
    destruct (worlds_of_runs_memory six_runs ptrs w0) as [-> _].
    destruct (worlds_of_runs_events six_runs ptrs w0) as (new & -> & Hl & Hp).
    cbn [memory w0 world_before_runs]. split.
    - by rewrite drop_app_length.
    - intros s p d Hin. rewrite take_app_length' in Hin by done.
      rewrite (Hp _ _ _ Hin). by apply c_string_at_corpus_ptrs. }
  pose proof (main_run WIN64a index_below wa) as Hma.
  pose proof (main_run WIN64b index_below wb) as Hmb.
  cbv zeta in Hma, Hmb, Hrun.
  revert Hrun Hma Hmb.
  generalize (shuffled_strings index_below (200 * 1000) 64).
  intros shuffled Hrun Hma Hmb.
  destruct (Hrun WIN64a wa) as [Ha1 Ha2], (Hrun WIN64b wb) as [Hb1 Hb2].
  eexists _, _. split; [exact Hma|]. split; [exact Hmb|].
  split; [|split].
  - rewrite Ha1. symmetry. exact Hb1.
  - exact Ha2.
  - exact Hb2.
Qed.

(** ** Binary64 arithmetic of the timer *)

Lemma fexp_double e : fexp 53 1024 e = Z.max (e - 53) (-1074).
Proof. reflexivity. Qed.

Lemma digits2_pos_size p : digits2_pos p = Pos.size p.
Proof. induction p as [p IH|p IH|]; simpl; by rewrite ?IH. Qed.

Lemma digits2_pos_log2 p : Z.pos (digits2_pos p) = Z.log2 (Z.pos p) + 1.
Proof. rewrite digits2_pos_size. destruct p; simpl; lia. Qed.

Lemma Zdigits2_log2 m : 0 < m -> Zdigits2 m = Z.log2 m + 1.
Proof. destruct m as [|p|p]; try lia. intros _. apply digits2_pos_log2. Qed.

Lemma iter_pos_iter {A} (f : A -> A) n x : SpecFloat.iter_pos f n x = Pos.iter f x n.
Proof.
  revert x. induction n as [n IH|n IH|]; intros x; simpl.
  - by rewrite !IH, <- !Pos.iter_swap.
  - by rewrite !IH.
  - done.
Qed.

Lemma shr_1_m mrs : 0 <= shr_m mrs -> shr_m (shr_1 mrs) = shr_m mrs / 2.
Proof.
  destruct mrs as [m r s]. simpl. intros Hm.
  destruct m as [|[p|p|]|p]; simpl; try lia; try done.
  - apply Z.div_unique with 1; lia.
  - apply Z.div_unique with 0; lia.
Qed.

Lemma iter_shr_1_m n mrs :
  0 <= shr_m mrs -> shr_m (SpecFloat.iter_pos shr_1 n mrs) = shr_m mrs / 2 ^ Z.pos n.
Proof.
  intros Hm. rewrite iter_pos_iter. induction n as [|n IH] using Pos.peano_ind.
  - simpl. rewrite shr_1_m by done. by rewrite Z.pow_1_r.
  - rewrite Pos.iter_succ, shr_1_m.
    + rewrite IH, Pos2Z.inj_succ, Z.pow_succ_r by lia.
      rewrite Z.div_div by lia. f_equal. lia.
    + rewrite IH. apply Z.div_pos; lia.
Qed.

(** A shift brings a positive mantissa in the normal range to at most 53
    bits without losing it. *)
Lemma shr_fexp_pos m e l :
  0 < m -> -1074 <= e ->
  0 < shr_m (fst (shr_fexp 53 1024 m e l)) <= m /\
  Z.log2 (shr_m (fst (shr_fexp 53 1024 m e l))) = Z.min (Z.log2 m) 52 /\
  e <= snd (shr_fexp 53 1024 m e l) <= e + Z.max 0 (Z.log2 m - 52).
Proof.
  intros Hm He. unfold shr_fexp, shr. rewrite fexp_double, Zdigits2_log2 by done.
  assert (0 <= Z.log2 m) by apply Z.log2_nonneg.
  assert (shr_m (shr_record_of_loc m l) = m) as Hrec by by destruct l as [|[]].
  destruct (Z.max (Z.log2 m + 1 + e - 53) (-1074) - e) as [|n|n] eqn:Hn;
    cbn [fst snd]; rewrite ?Hrec; try lia.
  rewrite iter_shr_1_m by lia. rewrite Hrec.
  assert (Z.pos n = Z.log2 m - 52) as Hn' by lia.
  assert (2 ^ Z.log2 m <= m) by (apply Z.log2_spec; lia).
  assert (0 < 2 ^ Z.pos n) by (apply Z.pow_pos_nonneg; lia).
  split; [split|split; [|lia]].
  - apply Z.div_str_pos. split; [done|].
    etrans; [|done]. apply Z.pow_le_mono_r; lia.
  - apply Z.div_le_upper_bound; [done|]. nia.
  - rewrite <- Z.shiftr_div_pow2 by lia. rewrite Z.log2_shiftr by done. lia.
Qed.

Lemma round_nearest_even_pos m l :
  0 < m -> m <= round_nearest_even m l <= m + 1.
Proof.
  intros Hm. unfold round_nearest_even.
  destruct l as [|[]]; try lia. destruct (Z.even m); lia.
Qed.

(** Rounding a positive mantissa in the range of the timer gives a
    positive finite double of the sign asked for. *)
Lemma binary_round_aux_finite s m e l :
  0 < m -> -1074 <= e -> e + Z.log2 m <= 900 ->
  exists m' e',
    binary_round_aux 53 1024 s m e l = S754_finite s m' e' /\
    e <= e' <= e + Z.max 0 (Z.log2 m - 52) + 1 /\
    Z.log2 (Z.pos m') <= 52.
Proof.
  intros Hm He Hbound. unfold binary_round_aux.
  pose proof (shr_fexp_pos m e l Hm He) as (Hm1 & Hl1 & He1).
  destruct (shr_fexp 53 1024 m e l) as [mrs1 e1]. cbn [fst snd] in *.
  pose proof (round_nearest_even_pos (shr_m mrs1) (loc_of_shr_record mrs1)
                ltac:(lia)) as Hr.
  set (m1 := round_nearest_even (shr_m mrs1) (loc_of_shr_record mrs1)) in *.
  pose proof (shr_fexp_pos m1 e1 loc_Exact ltac:(lia) ltac:(lia)) as (Hm2 & Hl2 & He2).
  destruct (shr_fexp 53 1024 m1 e1 loc_Exact) as [mrs2 e2]. cbn [fst snd] in *.
  assert (Z.log2 m1 <= 53) as Hlog.
  { etrans; [apply (Z.log2_le_mono m1 (Z.succ (shr_m mrs1))); lia|].
    etrans; [apply Z.log2_succ_le|]. lia. }
  assert (0 <= Z.log2 m) by apply Z.log2_nonneg.
  destruct (shr_m mrs2) as [|m2|m2] eqn:Hm2'; try lia.
  destruct (Z.leb_spec e2 (1024 - 53)); [|lia].
  exists m2, e2. split; [done|]. split; lia.
Qed.

(** Whatever the location, rounding a non-negative mantissa never gives
    a negative double or a NaN. *)
Lemma binary_round_aux_nonneg m e l :
  0 <= m -> double_nonneg (binary_round_aux 53 1024 false m e l) = true.
Proof.
  intros Hm. unfold binary_round_aux.
  assert (forall m0 e0 l0, 0 <= m0 -> 0 <= shr_m (fst (shr_fexp 53 1024 m0 e0 l0)))
    as Hshr.
  { intros m0 e0 l0 Hm0. unfold shr_fexp, shr.
    assert (shr_m (shr_record_of_loc m0 l0) = m0) as Hrec by by destruct l0 as [|[]].
    destruct (fexp 53 1024 (Zdigits2 m0 + e0) - e0); cbn [fst]; rewrite ?Hrec; try done.
    rewrite iter_shr_1_m by lia. rewrite Hrec. apply Z.div_pos; lia. }
  pose proof (Hshr m e l Hm) as H1.
  destruct (shr_fexp 53 1024 m e l) as [mrs1 e1]. cbn [fst] in H1.
  assert (0 <= round_nearest_even (shr_m mrs1) (loc_of_shr_record mrs1)) as H2.
  { unfold round_nearest_even. destruct (loc_of_shr_record mrs1) as [|[]]; try lia.
    destruct (Z.even _); lia. }
  pose proof (Hshr _ e1 loc_Exact H2) as H3.
  destruct (shr_fexp 53 1024 _ e1 loc_Exact) as [mrs2 e2]. cbn [fst] in H3.
  destruct (shr_m mrs2); try lia; [done|].
  by destruct (e2 <=? 1024 - 53).
Qed.

Lemma binary_round_aux_opp s m e l :
  binary_round_aux 53 1024 (negb s) m e l
  = double_opp (binary_round_aux 53 1024 s m e l).
Proof.
  unfold binary_round_aux.
  destruct (shr_fexp 53 1024 m e l) as [mrs1 e1].
  destruct (shr_fexp 53 1024 _ e1 loc_Exact) as [mrs2 e2].
  destruct (shr_m mrs2); [done| |done].
  by destruct (e2 <=? 1024 - 53).
Qed.

(** Conversion of an integer commutes with negation. *)
Lemma double_of_Z_opp z : z <> 0 -> double_of_Z (- z) = double_opp (double_of_Z z).
Proof.
  intros Hz. unfold double_of_Z, binary_normalize, binary_round.
  destruct z as [|p|p]; [done| |];
    [change (- Z.pos p) with (Z.neg p)|change (- Z.neg p) with (Z.pos p)];
    cbv beta iota; destruct (shl_align p 0 _) as [mz ez].
  - apply (binary_round_aux_opp false).
  - rewrite (binary_round_aux_opp true).
    by destruct (binary_round_aux 53 1024 true _ _ _).
Qed.

Lemma double_mul_opp_l x y :
  double_mul (double_opp x) y = double_opp (double_mul x y).
Proof.
  unfold double_mul, double_opp.
  destruct x as [sx|sx| |sx mx ex], y as [sy|sy| |sy my ey]; simpl; try done;
    rewrite <- ?negb_xorb_l; try done.
  apply binary_round_aux_opp.
Qed.

Lemma double_div_opp_l x y :
  double_div (double_opp x) y = double_opp (double_div x y).
Proof.
  unfold double_div, double_opp.
  destruct x as [sx|sx| |sx mx ex], y as [sy|sy| |sy my ey]; simpl; try done;
    rewrite <- ?negb_xorb_l; try done.
  destruct (SFdiv_core_binary 53 1024 (Z.pos mx) ex (Z.pos my) ey) as [[mz ez] lz].
  apply binary_round_aux_opp.
Qed.

Lemma Pos_iter_xO p k : Z.pos (Pos.iter xO p k) = Z.pos p * 2 ^ Z.pos k.
Proof.
  induction k as [|k IH] using Pos.peano_ind.
  - simpl. lia.
  - rewrite Pos.iter_succ, Pos2Z.inj_xO, IH, Pos2Z.inj_succ, Z.pow_succ_r by lia. lia.
Qed.

(** A positive integer below [2^64] converts to a positive finite
    double. *)
Lemma double_of_Z_pos z :
  0 < z < 2 ^ 64 ->
  exists m e, double_of_Z z = S754_finite false m e /\ -52 <= e <= 20 /\
              Z.log2 (Z.pos m) <= 52.
Proof.
  intros Hz. destruct z as [|p|p]; try lia.
  unfold double_of_Z, binary_normalize, binary_round, shl_align.
  rewrite fexp_double, digits2_pos_log2.
  assert (0 <= Z.log2 (Z.pos p) < 64) as Hlog.
  { split; [apply Z.log2_nonneg|]. apply Z.log2_lt_pow2; lia. }
  destruct (Z.max (Z.log2 (Z.pos p) + 1 + 0 - 53) (-1074) - 0) as [|k|k] eqn:Hk.
  - destruct (binary_round_aux_finite false (Z.pos p) 0 loc_Exact)
      as (m' & e' & -> & He' & Hm'); [lia..|].
    eexists _, _. split; [done|]. split; [lia|done].
  - destruct (binary_round_aux_finite false (Z.pos p) 0 loc_Exact)
      as (m' & e' & -> & He' & Hm'); [lia..|].
    eexists _, _. split; [done|]. split; [lia|done].
  - assert (Z.log2 (Z.pos (Pos.iter xO p k)) = Z.log2 (Z.pos p) + Z.pos k) as Hl.
    { rewrite Pos_iter_xO, <- Z.shiftl_mul_pow2 by lia.
      apply Z.log2_shiftl; lia. }
    destruct (binary_round_aux_finite false (Z.pos (Pos.iter xO p k))
                (Z.max (Z.log2 (Z.pos p) + 1 + 0 - 53) (-1074)) loc_Exact)
      as (m' & e' & -> & He' & Hm'); [lia..|].
    eexists _, _. split; [done|]. split; [lia|done].
Qed.

(** Products and quotients of positive finite doubles whose exponents are
    in the range of the timer are positive finite doubles. *)
Lemma double_mul_finite m1 e1 m2 e2 :
  -100 <= e1 <= 100 -> -100 <= e2 <= 100 ->
  Z.log2 (Z.pos m1) <= 52 -> Z.log2 (Z.pos m2) <= 52 ->
  exists m e,
    double_mul (S754_finite false m1 e1) (S754_finite false m2 e2)
      = S754_finite false m e /\
    e1 + e2 <= e <= e1 + e2 + 54 /\ Z.log2 (Z.pos m) <= 52.
Proof.
  intros He1 He2 Hm1 Hm2. unfold double_mul, SFmul. cbn [xorb].
  assert (Z.log2 (Z.pos (m1 * m2)) <= 105) as Hlog.
  { rewrite Pos2Z.inj_mul.
    etrans; [apply Z.log2_mul_above; lia|]. lia. }
  assert (0 <= Z.log2 (Z.pos (m1 * m2))) by apply Z.log2_nonneg.
  destruct (binary_round_aux_finite false (Z.pos (m1 * m2)) (e1 + e2) loc_Exact)
    as (m & e & -> & He & Hm); [lia..|].
  exists m, e. split; [done|]. split; [lia|done].
Qed.

Lemma double_div_finite m1 e1 m2 e2 :
  -100 <= e1 <= 100 -> -100 <= e2 <= 100 ->
  Z.log2 (Z.pos m1) <= 52 -> Z.log2 (Z.pos m2) <= 52 ->
  exists m e,
    double_div (S754_finite false m1 e1) (S754_finite false m2 e2)
      = S754_finite false m e.
Proof.
  intros He1 He2 Hm1 Hm2. unfold double_div, SFdiv, SFdiv_core_binary. cbn [xorb].
  rewrite !Zdigits2_log2, fexp_double by lia.
  assert (0 <= Z.log2 (Z.pos m1)) as Hl1 by apply Z.log2_nonneg.
  assert (0 <= Z.log2 (Z.pos m2)) as Hl2 by apply Z.log2_nonneg.
  set (l1 := Z.log2 (Z.pos m1)) in *. set (l2 := Z.log2 (Z.pos m2)) in *.
  set (e' := Z.min (Z.max (l1 + 1 + e1 - (l2 + 1 + e2) - 53) (-1074)) (e1 - e2)).
  assert (e' = l1 + e1 - l2 - e2 - 53) as He' by lia.
  assert (e1 - e2 - e' = 53 + l2 - l1) as Hs by lia.
  rewrite Hs.
  destruct (53 + l2 - l1) as [|k|k] eqn:Hk; try lia.
  assert (Z.pos m2 < 2 ^ (l2 + 1)) as Hlt2 by (apply Z.log2_spec; lia).
  assert (2 ^ l1 <= Z.pos m1) as Hge1 by (apply Z.log2_spec; lia).
  set (m' := Z.shiftl (Z.pos m1) (Z.pos k)).
  assert (Z.pos m2 <= m') as Hle.
  { subst m'. rewrite Z.shiftl_mul_pow2 by lia.
    assert (2 ^ (l2 + 1) <= 2 ^ l1 * 2 ^ Z.pos k).
    { rewrite <- Z.pow_add_r by lia. apply Z.pow_le_mono_r; lia. }
    assert (0 < 2 ^ Z.pos k) by (apply Z.pow_pos_nonneg; lia). nia. }
  assert (Z.log2 m' = l1 + Z.pos k) as Hlm.
  { subst m'. apply Z.log2_shiftl; lia. }
  pose proof (Z.div_str_pos m' (Z.pos m2) ltac:(lia)) as Hq.
  assert (m' / Z.pos m2 <= m') as Hqle.
  { apply Z.div_le_upper_bound; [lia|]. nia. }
  unfold Z.div in Hq, Hqle.
  destruct (Z.div_eucl m' (Z.pos m2)) as [q r].
  assert (Z.log2 q <= l1 + Z.pos k) as Hlq.
  { rewrite <- Hlm. apply Z.log2_le_mono. lia. }
  assert (0 <= Z.log2 q) by apply Z.log2_nonneg.
  destruct (binary_round_aux_finite false q e' (new_location (Z.pos m2) r))
    as (m & e & -> & _); [lia..|].
  by exists m, e.
Qed.

(** ** The timer *)

Lemma wrap_ll_in z : in_ll z -> wrap_ll z = z.
Proof. unfold in_ll, wrap_ll. intros Hz. rewrite Z.mod_small; lia. Qed.

Lemma wrap_ll_in_ll z : in_ll (wrap_ll z).
Proof.
  unfold in_ll, wrap_ll.
  pose proof (Z.mod_pos_bound (z + 2 ^ 63) (2 ^ 64) ltac:(lia)). lia.
Qed.

Lemma double_lit_1000 : double_lit 1000 0 = double_1000.
Proof. by vm_compute. Qed.

Lemma MillisecondsFromDeltaCounter_run start finish w :
  MillisecondsFromDeltaCounter start finish w
  = Some (elapsed_ms (qpf w) start finish, w).
Proof. done. Qed.

(** The quotient the timer computes from a positive difference and a
    positive frequency is a positive finite double. *)
Lemma elapsed_positive d f :
  0 < d < 2 ^ 64 -> 0 < f < 2 ^ 64 ->
  exists m e,
    double_div (double_mul (double_of_Z d) double_1000) (double_of_Z f)
    = S754_finite false m e.
Proof.
  intros Hd Hf. unfold double_1000.
  destruct (double_of_Z_pos d Hd) as (md & ed & -> & Hed & Hmd).
  destruct (double_of_Z_pos f Hf) as (mf & ef & -> & Hef & Hmf).
  destruct (double_mul_finite md ed 8796093022208000 (-43))
    as (mp & ep & -> & Hep & Hmp); [lia|lia|done|by vm_compute|].
  apply double_div_finite; lia.
Qed.

Lemma elapsed_numerator_positive d :
  0 < d < 2 ^ 64 ->
  exists m e, double_mul (double_of_Z d) double_1000 = S754_finite false m e.
Proof.
  intros Hd. unfold double_1000.
  destruct (double_of_Z_pos d Hd) as (md & ed & -> & Hed & Hmd).
  destruct (double_mul_finite md ed 8796093022208000 (-43))
    as (mp & ep & -> & _); [lia|lia|done|by vm_compute|].
  by eexists _, _.
Qed.

Lemma elapsed_ms_opp f d :
  d <> 0 ->
  double_div (double_mul (double_of_Z (- d)) double_1000) (double_of_Z f)
  = double_opp (double_div (double_mul (double_of_Z d) double_1000) (double_of_Z f)).
Proof.
  intros Hd. by rewrite double_of_Z_opp, double_mul_opp_l, double_div_opp_l.
Qed.

Lemma ll_sub_in start finish : in_ll (finish - start) -> ll_sub finish start = finish - start.
Proof. apply wrap_ll_in. Qed.

Lemma wrap_ll_eqm z : exists k, wrap_ll z = z + 2 ^ 64 * k.
Proof.
  unfold wrap_ll. exists (- ((z + 2 ^ 63) / 2 ^ 64)).
  pose proof (Z.div_mod (z + 2 ^ 63) (2 ^ 64) ltac:(lia)). lia.
Qed.

(** Subtraction in [long long] sees only the difference modulo [2^64]. *)
Lemma ll_sub_wrap a b : ll_sub (wrap_ll b) (wrap_ll a) = wrap_ll (b - a).
Proof.
  unfold ll_sub.
  destruct (wrap_ll_eqm a) as [ka ->], (wrap_ll_eqm b) as [kb ->].
  unfold wrap_ll. f_equal.
  replace (b + 2 ^ 64 * kb - (a + 2 ^ 64 * ka) + 2 ^ 63)
    with (b - a + 2 ^ 63 + (kb - ka) * 2 ^ 64) by lia.
  apply Z.mod_add. lia.
Qed.

(** The sign of the duration computed from a difference that fits and a
    positive frequency. *)
Lemma elapsed_ms_sign freq start finish :
  in_ll (finish - start) -> 0 < freq < 2 ^ 63 ->
  double_finite (elapsed_ms freq start finish) = true /\
  match start ?= finish with
  | Eq => elapsed_ms freq start finish = S754_zero false
  | Lt => SFltb (double_of_Z 0) (elapsed_ms freq start finish) = true
  | Gt => SFltb (elapsed_ms freq start finish) (double_of_Z 0) = true
  end.
Proof.
  intros Hd Hf. unfold elapsed_ms.
  rewrite ll_sub_in, double_lit_1000 by done.
  rewrite wrap_ll_in by (unfold in_ll; lia).
  unfold in_ll in Hd.
  destruct (Z.compare_spec start finish) as [->|Hlt|Hgt].
  - rewrite Z.sub_diag.
    destruct (double_of_Z_pos freq) as (mf & ef & -> & _); [lia|]. done.
  - destruct (elapsed_positive (finish - start) freq) as (m & e & ->); [lia..|].
    done.
  - replace (finish - start) with (- (start - finish)) by lia.
    rewrite elapsed_ms_opp by lia.
    destruct (elapsed_positive (start - finish) freq) as (m & e & ->); [lia..|].
    done.
Qed.

(** With a zero frequency the division is by zero. *)
Lemma elapsed_ms_zero_frequency start finish :
  in_ll (finish - start) ->
  elapsed_ms 0 start finish =
    match start ?= finish with
    | Eq => S754_nan
    | Lt => S754_infinity false
    | Gt => S754_infinity true
    end.
Proof.
  intros Hd. unfold elapsed_ms.
  rewrite ll_sub_in, double_lit_1000 by done.
  change (double_of_Z (wrap_ll 0)) with (S754_zero false).
  unfold in_ll in Hd.
  destruct (Z.compare_spec start finish) as [->|Hlt|Hgt].
  - by rewrite Z.sub_diag.
  - destruct (elapsed_numerator_positive (finish - start)) as (m & e & ->); [lia|].
    done.
  - replace (finish - start) with (- (start - finish)) by lia.
    rewrite double_of_Z_opp, double_mul_opp_l by lia.
    destruct (elapsed_numerator_positive (start - finish)) as (m & e & ->); [lia|].
    done.
Qed.

(** ** More about the timer *)

(** X1.  When the difference of the two readings fits a [long long] and
    the frequency is positive, [MillisecondsFromDeltaCounter] returns a
    finite double whose sign is that of [finish - start]: [+0.0] for equal
    readings, a positive number when [finish] is later, a negative one
    when it is earlier.  It is never a NaN or an infinity. *)
Theorem X1_timer_sign_of_difference (start finish : Z) (w : World) :
  in_ll start -> in_ll finish -> in_ll (finish - start) ->
  0 < qpf w < 2 ^ 63 ->
  exists r,
    MillisecondsFromDeltaCounter start finish w = Some (r, w) /\
    double_finite r = true /\
    match start ?= finish with
    | Eq => r = S754_zero false
    | Lt => SFltb (double_of_Z 0) r = true
    | Gt => SFltb r (double_of_Z 0) = true
    end.
Proof.
  intros _ _ Hd Hf. eexists. split; [apply MillisecondsFromDeltaCounter_run|].
  by apply elapsed_ms_sign.
Qed.

Lemma X1_timer_sign_of_difference_witness :
  exists r,
    MillisecondsFromDeltaCounter 100 350 (fresh_world 1 10000000)
      = Some (r, fresh_world 1 10000000) /\
    double_finite r = true /\
    SFltb (double_of_Z 0) r = true.
Proof.
  apply (X1_timer_sign_of_difference 100 350 (fresh_world 1 10000000));
    unfold in_ll; simpl; lia.
Defined.

(** X2.  The frequency is not checked: when [QueryPerformanceFrequency]
    stores zero, the division is by zero and the result is a NaN for
    equal readings, plus infinity when [finish] is later and minus
    infinity when it is earlier. *)
Theorem X2_timer_zero_frequency (start finish : Z) (w : World) :
  in_ll start -> in_ll finish -> in_ll (finish - start) ->
  qpf w = 0 ->
  MillisecondsFromDeltaCounter start finish w =
    Some (match start ?= finish with
          | Eq => S754_nan
          | Lt => S754_infinity false
          | Gt => S754_infinity true
          end, w).
Proof.
  intros _ _ Hd Hf. rewrite MillisecondsFromDeltaCounter_run, Hf.
  by rewrite elapsed_ms_zero_frequency.
Qed.

Lemma X2_timer_zero_frequency_witness :
  MillisecondsFromDeltaCounter 7 7 (fresh_world 1 0)
  = Some (S754_nan, fresh_world 1 0).
Proof.
  apply (X2_timer_zero_frequency 7 7 (fresh_world 1 0));
    unfold in_ll; simpl; lia.
Defined.

(** X3.  Exchanging the two readings negates the duration exactly, for
    any frequency, whenever the readings differ and their difference fits
    a [long long] either way. *)
Theorem X3_timer_swap_negates (start finish : Z) (w : World) :
  in_ll start -> in_ll finish ->
  in_ll (finish - start) -> in_ll (start - finish) -> start <> finish ->
  exists r,
    MillisecondsFromDeltaCounter start finish w = Some (r, w) /\
    MillisecondsFromDeltaCounter finish start w = Some (double_opp r, w).
Proof.
  intros _ _ Hd Hd' Hne. eexists. split; [apply MillisecondsFromDeltaCounter_run|].
  rewrite MillisecondsFromDeltaCounter_run. do 2 f_equal.
  unfold elapsed_ms. rewrite !ll_sub_in, double_lit_1000 by done.
  replace (start - finish) with (- (finish - start)) by lia.
  apply elapsed_ms_opp. lia.
Qed.

Lemma X3_timer_swap_negates_witness :
  exists r,
    MillisecondsFromDeltaCounter 100 350 (fresh_world 1 3) = Some (r, fresh_world 1 3) /\
    MillisecondsFromDeltaCounter 350 100 (fresh_world 1 3)
      = Some (double_opp r, fresh_world 1 3).
Proof.
  apply (X3_timer_swap_negates 100 350 (fresh_world 1 3));
    unfold in_ll; simpl; lia.
Defined.

(** ** Exact results of the timer *)

Lemma iter_shr_1_exact n m :
  0 < m ->
  SpecFloat.iter_pos shr_1 n
    {| shr_m := m * 2 ^ Z.pos n; shr_r := false; shr_s := false |}
  = {| shr_m := m; shr_r := false; shr_s := false |}.
Proof.
  rewrite iter_pos_iter. revert m.
  induction n as [|n IH] using Pos.peano_ind; intros m Hm.
  - simpl. destruct m as [|p|p]; try lia.
    replace (Z.pos p * 2 ^ 1) with (Z.pos p~0) by lia. done.
  - rewrite Pos.iter_succ.
    replace (m * 2 ^ Z.pos (Pos.succ n)) with (m * 2 * 2 ^ Z.pos n)
      by (rewrite Pos2Z.inj_succ, Z.pow_succ_r; lia).
    rewrite IH by lia. destruct m as [|p|p]; try lia.
    replace (Z.pos p * 2) with (Z.pos p~0) by lia. done.
Qed.

(** Rounding is exact on a 53-bit mantissa followed by zeros. *)
Lemma binary_round_aux_exact s m e n :
  Z.log2 (Z.pos m) = 52 -> 0 <= n -> -1074 <= e -> e + n <= 971 ->
  binary_round_aux 53 1024 s (Z.pos m * 2 ^ n) e loc_Exact = S754_finite s m (e + n).
Proof.
  intros Hm Hn He Hen.
  assert (0 < 2 ^ n) by (apply Z.pow_pos_nonneg; lia).
  assert (Z.log2 (Z.pos m * 2 ^ n) = 52 + n) as Hlog.
  { rewrite <- Z.shiftl_mul_pow2 by lia. rewrite Z.log2_shiftl by lia. lia. }
  assert (shr_fexp 53 1024 (Z.pos m * 2 ^ n) e loc_Exact
          = ({| shr_m := Z.pos m; shr_r := false; shr_s := false |}, e + n)) as Hs1.
  { unfold shr_fexp, shr. rewrite fexp_double, Zdigits2_log2, Hlog by lia.
    replace (Z.max (52 + n + 1 + e - 53) (-1074) - e) with n by lia.
    destruct n as [|k|k]; try lia.
    - simpl. by rewrite Z.mul_1_r, Z.add_0_r.
    - unfold shr_record_of_loc. by rewrite iter_shr_1_exact. }
  assert (shr_fexp 53 1024 (Z.pos m) (e + n) loc_Exact
          = ({| shr_m := Z.pos m; shr_r := false; shr_s := false |}, e + n)) as Hs2.
  { unfold shr_fexp, shr. rewrite fexp_double, Zdigits2_log2, Hm by lia.
    by replace (Z.max (52 + 1 + (e + n) - 53) (-1074) - (e + n)) with 0 by lia. }
  unfold binary_round_aux. rewrite Hs1. cbn [shr_m loc_of_shr_record round_nearest_even].
  rewrite Hs2. cbn [shr_m].
  by destruct (Z.leb_spec (e + n) (1024 - 53)); [|lia].
Qed.

(** The mantissa of [double_exact z]. *)
Lemma double_exact_mantissa z :
  0 < z < 2 ^ 53 ->
  Z.pos (Z.to_pos (z * 2 ^ (52 - Z.log2 z))) = z * 2 ^ (52 - Z.log2 z) /\
  Z.log2 (z * 2 ^ (52 - Z.log2 z)) = 52 /\
  0 <= Z.log2 z <= 52.
Proof.
  intros Hz.
  assert (0 <= Z.log2 z) by apply Z.log2_nonneg.
  assert (Z.log2 z < 53) by (apply Z.log2_lt_pow2; lia).
  assert (0 < 2 ^ (52 - Z.log2 z)) by (apply Z.pow_pos_nonneg; lia).
  split; [|split; [|lia]].
  - rewrite Z2Pos.id; [done|nia].
  - rewrite <- Z.shiftl_mul_pow2 by lia. rewrite Z.log2_shiftl by lia. lia.
Qed.

(** Integers below [2^53] convert exactly. *)
Lemma double_of_Z_exact z : 0 < z < 2 ^ 53 -> double_of_Z z = double_exact z.
Proof.
  intros Hz. destruct (double_exact_mantissa z Hz) as (Hpos & Hlog & Hl).
  destruct z as [|p|p]; try lia.
  unfold double_of_Z, binary_normalize, binary_round, shl_align, double_exact.
  rewrite fexp_double, digits2_pos_log2.
  set (l := Z.log2 (Z.pos p)) in *.
  destruct (Z.max (l + 1 + 0 - 53) (-1074) - 0) as [|k|k] eqn:Hk.
  - assert (l = 52) as Hl52 by lia.
    pose proof (binary_round_aux_exact false p 0 0 Hl52 ltac:(lia) ltac:(lia) ltac:(lia))
      as Hr.
    rewrite Z.pow_0_r, Z.mul_1_r in Hr. rewrite Hr, Hl52. simpl.
    do 2 f_equal. lia.
  - lia.
  - assert (Z.pos (Pos.iter xO p k) = Z.pos p * 2 ^ (52 - l)) as Hm.
    { rewrite Pos_iter_xO. do 2 f_equal. lia. }
    assert (Z.log2 (Z.pos (Pos.iter xO p k)) = 52) as Hl52 by by rewrite Hm.
    pose proof (binary_round_aux_exact false (Pos.iter xO p k)
                  (Z.max (l + 1 + 0 - 53) (-1074)) 0 Hl52
                  ltac:(lia) ltac:(lia) ltac:(lia)) as Hr.
    rewrite Z.pow_0_r, Z.mul_1_r in Hr. rewrite Hr.
    f_equal; [|lia]. apply Pos2Z.inj. by rewrite Hpos.
Qed.

(** Products below [2^53] are exact. *)
Lemma double_mul_exact a b :
  0 < a -> 0 < b -> a * b < 2 ^ 53 ->
  double_mul (double_exact a) (double_exact b) = double_exact (a * b).
Proof.
  intros Ha Hb Hab.
  assert (a < 2 ^ 53 /\ b < 2 ^ 53) as [Ha' Hb'] by nia.
  destruct (double_exact_mantissa a) as (Hpa & Hla & Hra); [lia|].
  destruct (double_exact_mantissa b) as (Hpb & Hlb & Hrb); [lia|].
  destruct (double_exact_mantissa (a * b)) as (Hpab & Hlab & Hrab); [lia|].
  pose proof (Z.log2_mul_below a b Ha Hb) as Hbelow.
  unfold double_exact, double_mul, SFmul. cbn [xorb].
  set (la := Z.log2 a) in *. set (lb := Z.log2 b) in *.
  set (lab := Z.log2 (a * b)) in *.
  set (n := 52 + lab - la - lb).
  assert (Z.pos (Z.to_pos (a * 2 ^ (52 - la)) * Z.to_pos (b * 2 ^ (52 - lb)))
          = Z.pos (Z.to_pos (a * b * 2 ^ (52 - lab))) * 2 ^ n) as ->.
  { rewrite Pos2Z.inj_mul, Hpa, Hpb, Hpab.
    replace (52 - la) with (52 - lab + (lab - la)) by lia.
    replace (52 - lb) with (n - (lab - la)) by lia.
    replace n with (lab - la + (n - (lab - la))) at 2 by lia.
    rewrite !Z.pow_add_r by lia. lia. }
  rewrite binary_round_aux_exact; [|by rewrite Hpab|lia..].
  f_equal. lia.
Qed.

(** A quotient that is an integer comes out exactly. *)
Lemma double_div_exact k f :
  0 < k -> 0 < f -> k * f < 2 ^ 53 ->
  double_div (double_exact (k * f)) (double_exact f) = double_exact k.
Proof.
  intros Hk Hf Hkf.
  assert (k < 2 ^ 53 /\ f < 2 ^ 53) as [Hk' Hf'] by nia.
  destruct (double_exact_mantissa k) as (Hpk & Hlk & Hrk); [lia|].
  destruct (double_exact_mantissa f) as (Hpf & Hlf & Hrf); [lia|].
  destruct (double_exact_mantissa (k * f)) as (Hpx & Hlx & Hrx); [lia|].
  pose proof (Z.log2_mul_below k f Hk Hf) as Hbelow.
  pose proof (Z.log2_mul_above k f ltac:(lia) ltac:(lia)) as Habove.
  unfold double_exact, double_div, SFdiv, SFdiv_core_binary. cbn [xorb].
  rewrite !Zdigits2_log2, fexp_double by lia.
  rewrite !Hpx, !Hpf, !Hlf, !Hlx.
  set (lk := Z.log2 k) in *. set (lf := Z.log2 f) in *.
  set (lx := Z.log2 (k * f)) in *.
  replace (Z.min (Z.max (52 + 1 + (lx - 52) - (52 + 1 + (lf - 52)) - 53) (-1074))
                 (lx - 52 - (lf - 52)))
    with (lx - lf - 53) by lia.
  replace (lx - 52 - (lf - 52) - (lx - lf - 53)) with 53 by lia.
  set (n := 1 + lk + lf - lx).
  assert (0 < 2 ^ (52 - lf)) by (apply Z.pow_pos_nonneg; lia).
  assert (Z.shiftl (k * f * 2 ^ (52 - lx)) 53
          = k * 2 ^ (52 - lk) * 2 ^ n * (f * 2 ^ (52 - lf))) as Hm'.
  { rewrite Z.shiftl_mul_pow2 by lia.
    replace (k * f * 2 ^ (52 - lx) * 2 ^ 53) with (k * f * 2 ^ (52 - lx + 53))
      by (rewrite Z.pow_add_r by lia; lia).
    replace (52 - lx + 53) with (52 - lk + n + (52 - lf)) by lia.
    rewrite !Z.pow_add_r by lia. lia. }
  rewrite Hm'. unfold n.
  pose proof (Z.div_mul (k * 2 ^ (52 - lk) * 2 ^ (1 + lk + lf - lx))
                (f * 2 ^ (52 - lf)) ltac:(nia)) as Hq.
  pose proof (Z.mod_mul (k * 2 ^ (52 - lk) * 2 ^ (1 + lk + lf - lx))
                (f * 2 ^ (52 - lf)) ltac:(nia)) as Hr.
  unfold Z.div in Hq. unfold Z.modulo in Hr.
  destruct (Z.div_eucl _ (f * 2 ^ (52 - lf))) as [q r]. subst q r.
  assert (new_location (f * 2 ^ (52 - lf)) 0 = loc_Exact) as ->.
  { unfold new_location, new_location_even, new_location_odd.
    by destruct (Z.even _). }
  rewrite <- Hpk.
  rewrite binary_round_aux_exact; [|by rewrite Hpk|lia..].
  f_equal. lia.
Qed.

Lemma double_1000_exact : double_1000 = double_exact 1000.
Proof. by vm_compute. Qed.

Lemma elapsed_ms_exact freq start finish k :
  in_ll (finish - start) ->
  0 < finish - start -> 1000 * (finish - start) < 2 ^ 53 ->
  0 < freq -> 0 < k -> 1000 * (finish - start) = k * freq ->
  elapsed_ms freq start finish = double_exact k.
Proof.
  intros Hin Hd Hd53 Hf Hk Heq.
  assert (freq < 2 ^ 53 /\ k < 2 ^ 53) as [Hf' Hk'] by nia.
  unfold elapsed_ms.
  rewrite ll_sub_in, double_lit_1000, double_1000_exact by done.
  rewrite wrap_ll_in by (unfold in_ll; lia).
  rewrite !double_of_Z_exact by lia.
  rewrite double_mul_exact by lia.
  replace ((finish - start) * 1000) with (k * freq) by lia.
  apply double_div_exact; lia.
Qed.

(** X4.  Whole milliseconds come out exactly: when the elapsed ticks
    make [k] milliseconds, that is [1000 * (finish - start) = k *
    frequency], and [1000 * (finish - start)] is below [2^53], the result
    is the double that holds the integer [k], with no rounding error. *)
Theorem X4_timer_whole_milliseconds_exact (start finish k : Z) (w : World) :
  in_ll start -> in_ll finish ->
  0 < finish - start -> 1000 * (finish - start) < 2 ^ 53 ->
  0 < qpf w -> 0 < k ->
  1000 * (finish - start) = k * qpf w ->
  MillisecondsFromDeltaCounter start finish w = Some (double_of_Z k, w) /\
  double_of_Z k = double_exact k.
Proof.
  intros _ _ Hd Hd53 Hf Hk Heq.
  assert (k < 2 ^ 53) by nia.
  rewrite MillisecondsFromDeltaCounter_run, double_of_Z_exact by lia.
  split; [|done]. do 2 f_equal.
  apply elapsed_ms_exact; try done. unfold in_ll. lia.
Qed.

Lemma X4_timer_whole_milliseconds_exact_witness :
  MillisecondsFromDeltaCounter 2500 32500 (fresh_world 1 10000000)
    = Some (double_of_Z 3, fresh_world 1 10000000) /\
  double_of_Z 3 = double_exact 3.
Proof.
  apply (X4_timer_whole_milliseconds_exact 2500 32500 3 (fresh_world 1 10000000));
    unfold in_ll; simpl; lia.
Defined.

(** X5.  One second reads as exactly 1000.0: for every frequency [f] with
    [0 < f] and [1000 * f < 2^53], two readings [f] ticks apart give
    the double [1000.0]. *)
Theorem X5_timer_one_second_is_1000 (start : Z) (w : World) :
  in_ll start -> in_ll (start + qpf w) ->
  0 < qpf w -> 1000 * qpf w < 2 ^ 53 ->
  MillisecondsFromDeltaCounter start (start + qpf w) w = Some (double_lit 1000 0, w).
Proof.
  intros Hs Hf Hq Hq53.
  rewrite MillisecondsFromDeltaCounter_run, double_lit_1000, double_1000_exact.
  do 2 f_equal. apply elapsed_ms_exact; unfold in_ll; lia.
Qed.

Lemma X5_timer_one_second_is_1000_witness :
  MillisecondsFromDeltaCounter 0 (0 + qpf (fresh_world 1 3579545)) (fresh_world 1 3579545)
  = Some (double_lit 1000 0, fresh_world 1 3579545).
Proof.
  apply (X5_timer_one_second_is_1000 0 (fresh_world 1 3579545));
    unfold in_ll; simpl; lia.
Defined.

(** ** More about the runner *)

Lemma push_back_all_Some (T : Type) `{StringT T} ptrs (v v' : list T) w w' :
  push_back_all T ptrs v w = Some (v', w') ->
  Forall (fun p => is_Some (c_string_at (memory w) p)) ptrs.
Proof.
  revert v. induction ptrs as [|p ptrs IH]; intros v; simpl; [by constructor|].
  run_step. unfold deref, c_string_at.
  destruct (memory w !! p) as [buf|] eqn:Hp; [|done].
  destruct (nul_terminated buf) eqn:Hn; [|done].
  intros Hrest. constructor; [|by eapply IH].
  by rewrite Hp, Hn.
Qed.

Lemma MeasurePushBackAndSort_Some (T : Type) `{StringT T} ptrs d perf w w' :
  MeasurePushBackAndSort T ptrs d w = Some (perf, w') ->
  Forall (fun p => is_Some (c_string_at (memory w) p)) ptrs.
Proof.
  unfold MeasurePushBackAndSort, MeasurePushBackAndSort_body. run_step.
  match goal with |- context [push_back_all T ptrs [] ?w1] =>
    destruct (push_back_all T ptrs [] w1) as [[v w2]|] eqn:Hv; [|done] end.
  intros _. by apply push_back_all_Some in Hv.
Qed.

(** X6.  A run of the runner is defined exactly when every pointer it is
    given designates a NUL-terminated buffer; the empty vector is such an
    input.  One pointer that designates none makes the whole run
    undefined, wherever it stands in the vector. *)
Theorem X6_runner_defined_iff_pointers_valid
    (s : Strategy) (shuffled_ptrs : list ptr) (description : string) (w : World) :
  is_Some (MeasurePushBackAndSort (StringOf s) shuffled_ptrs description w) <->
  Forall (fun p => is_Some (c_string_at (memory w) p)) shuffled_ptrs.
Proof.
  split.
  - intros [[perf w'] Hrun]. by eapply MeasurePushBackAndSort_Some.
  - intros Hvalid. destruct (designated_buffers _ _ Hvalid) as (bufs & Hd & _).
    eexists. by apply (MeasurePushBackAndSort_run shuffled_ptrs bufs).
Qed.

(** X7.  What a run that returns has done does not depend on the strings:
    it has read the counter four times, written nothing to the console,
    left the memory and the frequency alone, and its sample is the one
    computed from those four readings, labelled as asked. *)
Theorem X7_runner_effects
    (s : Strategy) (shuffled_ptrs : list ptr) (description : string)
    (perf : PerfData) (w w' : World) :
  MeasurePushBackAndSort (StringOf s) shuffled_ptrs description w = Some (perf, w') ->
  qpc_calls w' = (4 + qpc_calls w)%nat /\
  console w' = console w /\ memory w' = memory w /\
  qpf w' = qpf w /\ qpc w' = qpc w /\
  perf = sample_of (qpc w) (qpf w) (qpc_calls w) description.
Proof.
  intros Hrun. pose proof (MeasurePushBackAndSort_Some _ _ _ _ _ _ Hrun) as Hvalid.
  destruct (designated_buffers _ _ Hvalid) as (bufs & Hd & _).
  rewrite (MeasurePushBackAndSort_run shuffled_ptrs bufs) in Hrun by done.
  by injection Hrun as <- <-.
Qed.

Lemma X7_runner_effects_witness :
  let w := {| qpc n := 7 * Z.of_nat n; qpc_calls := 2; qpf := 1000;
              memory := [wliteral "b" ++ [NUL]; wliteral "a" ++ [NUL]];
              console := "log"; events := [] |} in
  let w' := after_run w (EvRun STL [1; 0]%nat "run") in
  let perf := sample_of (qpc w) (qpf w) 2 "run" in
  qpc_calls w' = (4 + qpc_calls w)%nat /\
  console w' = console w /\ memory w' = memory w /\
  qpf w' = qpf w /\ qpc w' = qpc w /\
  perf = sample_of (qpc w) (qpf w) (qpc_calls w) "run".
Proof.
  intros w w' perf.
  apply (X7_runner_effects STL [1; 0]%nat "run" perf w w').
  reflexivity.
Defined.

Lemma wcs_text_no_NUL s : NUL ∉ wcs_text s.
Proof.
  induction s as [|c s IH]; rewrite ?wcs_text_nil, ?wcs_text_cons.
  - apply not_elem_of_nil.
  - destruct (N.eqb_spec c NUL); [apply not_elem_of_nil|].
    by apply not_elem_of_cons.
Qed.

Lemma wcs_text_app_terminator t : wcs_text (t ++ [NUL]) = wcs_text t.
Proof.
  induction t as [|c t IH]; [done|].
  simpl. rewrite !wcs_text_cons. destruct (c =? NUL)%N; [done|]. by rewrite IH.
Qed.

Lemma wcs_text_id_iff t : wcs_text t = t <-> NUL ∉ t.
Proof.
  split.
  - intros <-. apply wcs_text_no_NUL.
  - intros Hnul. rewrite <- (wcs_text_buffer t Hnul) at 2.
    symmetry. apply wcs_text_app_terminator.
Qed.

(** X8.  The way from a [wstring] through [c_str()] back to a string of
    either strategy keeps the characters before the first NUL: the new
    string holds the same characters exactly when the original holds no
    NUL, and a proper prefix of them otherwise. *)
Theorem X8_c_str_round_trip (s : Strategy) (x : wstring) :
  chars (from_wcs (ws_buffer x) : StringOf s) = wcs_text (ws_chars x) /\
  (chars (from_wcs (ws_buffer x) : StringOf s) = ws_chars x <-> NUL ∉ ws_chars x) /\
  (exists rest, ws_chars x = chars (from_wcs (ws_buffer x) : StringOf s) ++ rest).
Proof.
  assert (chars (from_wcs (ws_buffer x) : StringOf s) = wcs_text (ws_chars x)) as ->.
  { rewrite chars_from_wcs. apply wcs_text_app_terminator. }
  split; [done|]. split; [apply wcs_text_id_iff|].
  exists (drop (wcslen (ws_chars x)) (ws_chars x)).
  unfold wcs_text. by rewrite take_drop.
Qed.

(** The texts a vector of pointers designates. *)
Lemma inserted_chars (T : Type) `{StringTLaws T} m ptrs bufs :
  Forall2 (designates m) ptrs bufs ->
  map (c_string_at m) ptrs = map Some (map chars (map from_wcs bufs : list T)).
Proof.
  induction 1 as [|p buf ptrs bufs [Hp Hn] _ IH]; [done|].
  simpl. rewrite IH. f_equal. unfold c_string_at.
  by rewrite Hp, Hn, chars_from_wcs.
Qed.

Lemma Permutation_map_Some {A} (a b : list A) :
  map Some a ≡ₚ map Some b -> a ≡ₚ b.
Proof.
  intros Hp. apply Permutation_map_inv in Hp as (c & Hc & Hbc).
  assert (a = c) as ->; [|done].
  clear Hbc. revert c Hc. induction a as [|x a IH]; intros [|y c]; simpl; try done.
  intros [= -> Hc]. f_equal. by apply IH.
Qed.

Lemma sorted_chars_unique (T1 T2 : Type) `{StringTLaws T1} `{StringTLaws T2}
    (v1 : list T1) (v2 : list T2) :
  map chars v1 ≡ₚ map chars v2 ->
  map chars (sort v1) = map chars (sort v2).
Proof.
  intros Hp. apply lex_sorted_unique.
  - apply sorted_lex_map_chars, sort_sorted.
  - apply sorted_lex_map_chars, sort_sorted.
  - by rewrite !sort_Permutation.
Qed.

(** X9.  What the sorted vector shows depends only on the texts the
    pointers designate, taken as a multiset: two runs, of either strategy,
    on vectors of pointers that designate the same texts in any order end
    with vectors that iterate identically. *)
Theorem X9_sorted_texts_independent_of_order_and_strategy
    (s1 s2 : Strategy) (ptrs1 ptrs2 : list ptr) (d1 d2 : string) (w1 w2 : World) :
  Forall (fun p => is_Some (c_string_at (memory w1) p)) ptrs1 ->
  map (c_string_at (memory w1)) ptrs1 ≡ₚ map (c_string_at (memory w2)) ptrs2 ->
  exists perf1 (v1 : list (StringOf s1)) w1' perf2 (v2 : list (StringOf s2)) w2',
    MeasurePushBackAndSort_body (StringOf s1) ptrs1 d1 w1 = Some ((perf1, v1), w1') /\
    MeasurePushBackAndSort_body (StringOf s2) ptrs2 d2 w2 = Some ((perf2, v2), w2') /\
    map chars v1 = map chars v2.
Proof.
  intros Hvalid1 Hperm.
  assert (Forall (fun p => is_Some (c_string_at (memory w2) p)) ptrs2) as Hvalid2.
  { apply Forall_forall. intros p Hp.
    apply (list_elem_of_fmap_2 (c_string_at (memory w2))) in Hp.
    change (c_string_at (memory w2) <$> ptrs2)
      with (map (c_string_at (memory w2)) ptrs2) in Hp.
    rewrite <- Hperm in Hp.
    change (map ?f ?l) with (f <$> l) in Hp.
    apply list_elem_of_fmap in Hp as (q & -> & Hq).
    by eapply Forall_forall in Hvalid1. }
  destruct (designated_buffers _ _ Hvalid1) as (bufs1 & Hd1 & _).
  destruct (designated_buffers _ _ Hvalid2) as (bufs2 & Hd2 & _).
  eexists _, _, _, _, _, _. split; [|split].
  - by apply MeasurePushBackAndSort_body_run.
  - by apply MeasurePushBackAndSort_body_run.
  - apply sorted_chars_unique; try apply _.
    rewrite (inserted_chars (StringOf s1) _ _ _ Hd1) in Hperm.
    rewrite (inserted_chars (StringOf s2) _ _ _ Hd2) in Hperm.
    by apply Permutation_map_Some in Hperm.
Qed.

Lemma X9_sorted_texts_independent_of_order_and_strategy_witness :
  let w := {| qpc n := Z.of_nat n; qpc_calls := 0; qpf := 10;
              memory := [wliteral "b" ++ [NUL]; wliteral "a" ++ [NUL]];
              console := EmptyString; events := [] |} in
  exists perf1 (v1 : list (StringOf ATL)) w1' perf2 (v2 : list (StringOf STL)) w2',
    MeasurePushBackAndSort_body (StringOf ATL) [0; 1]%nat "x" w = Some ((perf1, v1), w1') /\
    MeasurePushBackAndSort_body (StringOf STL) [1; 0]%nat "y" w = Some ((perf2, v2), w2') /\
    map chars v1 = map chars v2.
Proof.
  intros w.
  apply (X9_sorted_texts_independent_of_order_and_strategy ATL STL
           [0; 1]%nat [1; 0]%nat "x" "y" w w).
  - repeat constructor; vm_compute; eauto.
  - vm_compute. apply perm_swap.
Defined.

(** X13.  The comparison the sort step uses is, for both string types, a
    strict weak order, which is what [std::sort] requires of it: no string
    is less than itself, being less is transitive, and two strings are
    equivalent, neither less than the other, exactly when they hold the
    same characters, so that equivalence is transitive too. *)
Theorem X13_less_is_a_strict_weak_order (s : Strategy) (a b c : StringOf s) :
  less a a = false /\
  (less a b = true -> less b c = true -> less a c = true) /\
  (less a b = false /\ less b a = false <-> chars a = chars b) /\
  (less a b = false /\ less b a = false ->
   less b c = false /\ less c b = false ->
   less a c = false /\ less c a = false).
Proof.
  rewrite !less_lex.
  assert (forall x y : list wchar_t,
            lex_ltb x y = false /\ lex_ltb y x = false <-> x = y) as Heqv.
  { intros x y. split.
    - intros [Hxy Hyx]. by apply lex_ltb_connected.
    - intros ->. by rewrite lex_ltb_irrefl. }
  split; [apply lex_ltb_irrefl|]. split; [apply lex_ltb_trans|].
  split; [apply Heqv|].
  intros Hab%Heqv Hbc%Heqv. apply Heqv. congruence.
Qed.

(** ** What every run of [main] sorts *)














(** ** The text of a whole number of milliseconds *)








